(** * Tutor-AI: client request helpers and the semantic generation cache

    Part 1 embeds two pieces of the React client:
    - [src/client/src/utils/pii.ts] ([luhnCheck], [detectPII], [hasPII]);
    - [src/client/src/pages/Questions.tsx] ([onGenerate]) with the request
      type and call of [src/client/src/api/client.ts].
    Part 1c adds the rest of the client these touch: [setAuthToken],
    [login]'s form body, [getContentById], [getErrorMessage] and the answer
    submission of [api/client.ts], the session of [context/AuthContext.tsx],
    the answer counting and [onSubmit] of [pages/Questions.tsx], and the
    links by which pages pass ids to each other.

    Part 2 embeds the generation cache of the FastAPI backend (KeyBuilder,
    SimilarityScorer, CandidateRetriever, GenerationOrchestrator and the
    ArtifactStore interface).  The backend sources are not part of the
    client tree, so each of its definitions is modelled from the
    specification of the cache and says so in its doc comment. *)

From Stdlib Require Import String Ascii List Bool Arith ZArith QArith Qround Lia.
From Stdlib Require Import Sorting.Permutation Sorting.Sorted.
From Stdlib Require Import Structures.OrdersEx Numbers.DecimalString Numbers.DecimalNat.
Import ListNotations.
Open Scope string_scope.
Open Scope nat_scope.
Open Scope list_scope.

(* ================================================================== *)
(** ** Part 1a: [utils/pii.ts] *)

Module Pii.

(** JavaScript's [Array.from(new Set(xs))]: each element is added to the set
    in order, a value already present is skipped, and the array lists the
    set in insertion order. *)
Definition set_add (acc : list string) (x : string) : list string :=
  if existsb (String.eqb x) acc then acc else acc ++ [x].

Definition array_from_set (xs : list string) : list string :=
  fold_left set_add xs [].

(** [number.match(/\d/g) || []] mapped through [parseInt]. *)
Definition digit_value (c : ascii) : option nat :=
  let n := nat_of_ascii c in
  if (48 <=? n) && (n <=? 57) then Some (n - 48) else None.

Fixpoint digits_of (s : string) : list nat :=
  match s with
  | EmptyString => []
  | String c r =>
      match digit_value c with
      | Some d => d :: digits_of r
      | None => digits_of r
      end
  end.

(** The loop [for (let i = 0; i < digits.length - 1; i++)] of [luhnCheck],
    threading [checksum]. *)
Fixpoint luhn_loop (parity i : nat) (ds : list nat) (checksum : nat) : nat :=
  match ds with
  | [] => checksum
  | [_] => checksum
  | d :: r =>
      let d' := if Nat.eqb (i mod 2) parity
                then (if 9 <? d * 2 then d * 2 - 9 else d * 2)
                else d in
      luhn_loop parity (S i) r (checksum + d')
  end.

Definition luhnCheck (number : string) : bool :=
  let digits := digits_of number in
  if (length digits <? 13) || (19 <? length digits) then false
  else
    let parity := (length digits - 2) mod 2 in
    let checksum := luhn_loop parity 0 digits 0 in
    Nat.eqb ((checksum + last digits 0) mod 10) 0.

Section Detect.
(** The four module-level regular expressions of [pii.ts] enter as their
    [.test] predicates, and the global credit-card regular expression as the
    list returned by [text.match(...) || []].  Every statement below holds
    for all of them. *)
Variables EMAIL_test PHONE_test SSN_test IBAN_test : string -> bool.
Variable cc_matches : string -> list string.

(** [text?: string]: [None] is [undefined]. *)
Definition detectPII (text : option string) : list string :=
  match text with
  | None => []
  | Some t =>
      if String.eqb t "" then [] (* [!text] holds for [""] *)
      else
        let issues :=
          (if EMAIL_test t then ["email"] else [])
          ++ (if PHONE_test t then ["phone"] else [])
          ++ (if SSN_test t then ["ssn"] else [])
          ++ (if IBAN_test t then ["iban"] else [])
          ++ (if existsb luhnCheck (cc_matches t) then ["credit card"] else [])
        in array_from_set issues
  end.

Definition hasPII (text : option string) : bool :=
  0 <? length (detectPII text).

End Detect.
End Pii.

(* ================================================================== *)
(** ** Part 1b: [pages/Questions.tsx] and [api/client.ts] *)

Module QuestionsPage.

(** [export type QuestionsRequest]; an optional field left out of the object
    literal is [None]. *)
Record QuestionsRequest := mkQuestionsRequest {
  contentId : string;
  questionCount : option Z;
  questionTypes : option (list string);
  difficultyDistribution : option (list (string * Q));
  bloomLevels : option (list string)
}.

(** The observable effects of the handler up to its first [await]. *)
Inductive Effect :=
| Toast (title status : string)
| SetLoading (b : bool)
| SetGenerating (b : bool)
| Post (path : string) (payload : QuestionsRequest).

(** [generateQuestions(payload)] is [api.post('/questions/generate', payload)]. *)
Definition generateQuestions (payload : QuestionsRequest) : Effect :=
  Post "/questions/generate" payload.

(** The component state read by [onGenerate]. *)
Record PageState := mkPageState {
  st_contentId : string;
  st_count : Z;
  st_type : string
}.

(** [const onGenerate = async () => { ... }] up to the awaited call. *)
Definition onGenerate (s : PageState) : list Effect :=
  if String.eqb (st_contentId s) "" then
    [Toast "Missing content id" "warning"]
  else
    [SetLoading true; SetGenerating true;
     generateQuestions
       {| contentId := st_contentId s;
          questionCount := Some (st_count s);
          questionTypes := Some [st_type s];
          difficultyDistribution := None;
          bloomLevels := None |}].

End QuestionsPage.

(* ================================================================== *)
(** ** Part 1c: more of the client *)

(** A JavaScript object with string values used as a map (axios headers,
    [localStorage], the answers record): keys in insertion order,
    assignment to an existing key keeps its place, [delete] removes it. *)
Module JsObject.

Definition obj : Type := list (string * string).

Definition has_key (k : string) (o : obj) : bool :=
  existsb (fun p => String.eqb (fst p) k) o.

(** [o[k]], [undefined] (or [getItem]'s [null]) as [None]. *)
Definition lookup (k : string) (o : obj) : option string :=
  option_map snd (find (fun p => String.eqb (fst p) k) o).

(** [o[k] = v] (also [{...o, [k]: v}] and [setItem]). *)
Definition assign (k v : string) (o : obj) : obj :=
  if has_key k o
  then map (fun p => if String.eqb (fst p) k then (k, v) else p) o
  else o ++ [(k, v)].

(** [delete o[k]] (also [removeItem]). *)
Definition delete (k : string) (o : obj) : obj :=
  filter (fun p => negb (String.eqb (fst p) k)) o.

End JsObject.

(** [src/client/src/api/client.ts] beyond the request types. *)
Module ApiClient.
Import JsObject.

(** [setAuthToken(token?: string)] on [api.defaults.headers.common];
    [if (token)] is false for [undefined] and [""]. *)
Definition setAuthToken (token : option string) (headers : obj) : obj :=
  match token with
  | Some t =>
      if String.eqb t "" then delete "Authorization" headers
      else assign "Authorization" ("Bearer " ++ t)%string headers
  | None => delete "Authorization" headers
  end.

(** The characters [encodeURIComponent] leaves as they are:
    [A-Z a-z 0-9 - _ . ! ~ * ' ( )]. *)
Definition uri_unreserved (c : ascii) : bool :=
  let n := nat_of_ascii c in
  ((65 <=? n) && (n <=? 90)) || ((97 <=? n) && (n <=? 122))
  || ((48 <=? n) && (n <=? 57))
  || existsb (fun d => Ascii.eqb c d) (list_ascii_of_string "-_.!~*'()").

(** An upper-case hexadecimal digit. *)
Definition hex_digit (n : nat) : ascii :=
  ascii_of_nat (if n <? 10 then 48 + n else 55 + n).

(** [encodeURIComponent] on a string held as its UTF-8 bytes: every byte
    outside the unreserved set becomes [%XX]. *)
Fixpoint encodeURIComponent (s : string) : string :=
  match s with
  | EmptyString => EmptyString
  | String c r =>
      if uri_unreserved c then String c (encodeURIComponent r)
      else
        let n := nat_of_ascii c in
        String "%" (String (hex_digit (n / 16)) (String (hex_digit (n mod 16))
          (encodeURIComponent r)))
  end.

(** The path [getContentById(id)] requests. *)
Definition getContentById_path (id : string) : string :=
  ("/content/" ++ encodeURIComponent id)%string.

(** The decoding a server applies to a percent-encoded path segment
    (upper-case hexadecimal, as [encodeURIComponent] writes it). *)
Definition hex_val (h : ascii) : option nat :=
  let n := nat_of_ascii h in
  if (48 <=? n) && (n <=? 57) then Some (n - 48)
  else if (65 <=? n) && (n <=? 70) then Some (n - 55)
  else None.

Fixpoint percent_decode (s : string) : option string :=
  match s with
  | EmptyString => Some EmptyString
  | String c r =>
      if Ascii.eqb c "%" then
        match r with
        | String h1 (String h2 r') =>
            match hex_val h1, hex_val h2 with
            | Some a, Some b =>
                option_map (String (ascii_of_nat (a * 16 + b))) (percent_decode r')
            | _, _ => None
            end
        | _ => None
        end
      else option_map (String c) (percent_decode r)
  end.

(** [login]'s body: [new URLSearchParams()] with [username] and
    [password] appended, serialised as [application/x-www-form-urlencoded]:
    the bytes [*-._], digits and letters stay, a space becomes [+], every
    other byte becomes [%XX]. *)
Definition form_safe (c : ascii) : bool :=
  let n := nat_of_ascii c in
  ((65 <=? n) && (n <=? 90)) || ((97 <=? n) && (n <=? 122))
  || ((48 <=? n) && (n <=? 57))
  || existsb (fun d => Ascii.eqb c d) (list_ascii_of_string "*-._").

Fixpoint form_encode (s : string) : string :=
  match s with
  | EmptyString => EmptyString
  | String c r =>
      if form_safe c then String c (form_encode r)
      else if Ascii.eqb c " " then String "+" (form_encode r)
      else
        let n := nat_of_ascii c in
        String "%" (String (hex_digit (n / 16)) (String (hex_digit (n mod 16))
          (form_encode r)))
  end.

(** [URLSearchParams.toString()]. *)
Definition form_serialize (params : list (string * string)) : string :=
  String.concat "&" (map (fun p => (form_encode (fst p) ++ "=" ++ form_encode (snd p))%string) params).

Definition login_body (email password : string) : string :=
  form_serialize [("username", email); ("password", password)].

(** The form parsing a server applies to such a body: split at [&], skip
    empty pieces, split each at its first [=], then turn [+] into a space and
    decode [%XX] (either case), leaving a malformed [%] as it is. *)
Definition hex_val_ci (h : ascii) : option nat :=
  let n := nat_of_ascii h in
  if (48 <=? n) && (n <=? 57) then Some (n - 48)
  else if (65 <=? n) && (n <=? 70) then Some (n - 55)
  else if (97 <=? n) && (n <=? 102) then Some (n - 87)
  else None.

Fixpoint form_decode (s : string) : string :=
  match s with
  | EmptyString => EmptyString
  | String c r =>
      if Ascii.eqb c "+" then String " " (form_decode r)
      else if Ascii.eqb c "%" then
        match r with
        | String h1 (String h2 r') =>
            match hex_val_ci h1, hex_val_ci h2 with
            | Some a, Some b => String (ascii_of_nat (a * 16 + b)) (form_decode r')
            | _, _ => String c (form_decode r)
            end
        | _ => String c (form_decode r)
        end
      else String c (form_decode r)
  end.

Fixpoint split_on (sep : ascii) (s : string) : list string :=
  match s with
  | EmptyString => [EmptyString]
  | String c r =>
      if Ascii.eqb c sep then EmptyString :: split_on sep r
      else match split_on sep r with
           | [] => [String c EmptyString]
           | x :: xs => String c x :: xs
           end
  end.

Fixpoint split_first (sep : ascii) (s : string) : string * option string :=
  match s with
  | EmptyString => (EmptyString, None)
  | String c r =>
      if Ascii.eqb c sep then (EmptyString, Some r)
      else let (a, b) := split_first sep r in (String c a, b)
  end.

Definition form_parse (body : string) : list (string * string) :=
  flat_map (fun piece =>
              if String.eqb piece "" then []
              else let (n, v) := split_first "=" piece in
                   [(form_decode n, form_decode (match v with Some x => x | None => "" end))])
           (split_on "&" body).

(** The path a request of [api] reaches. Axios' [buildFullPath] joins
    [baseURL] and a relative path with [combineURLs], and [buildURL] leaves
    the URL as it is when there are no params. The browser's URL parser
    (WHATWG URL Standard) then resolves the URL against the page, which is
    served over http or https. *)

(** [baseURL = import.meta.env.VITE_API_BASE_URL || '/api'], with the
    variable unset. *)
Definition baseURL : string := "/api".

(** [baseURL.replace(/\/?\/$/, '')]. *)
Definition strip_trailing_slashes (s : string) : string :=
  match rev (list_ascii_of_string s) with
  | "/"%char :: "/"%char :: r => string_of_list_ascii (rev r)
  | "/"%char :: r => string_of_list_ascii (rev r)
  | _ => s
  end.

(** [relativeURL.replace(/^\/+/, '')]. *)
Fixpoint strip_leading_slashes (s : string) : string :=
  match s with
  | String "/" r => strip_leading_slashes r
  | _ => s
  end.

(** Axios' [combineURLs(baseURL, relativeURL)]. *)
Definition combineURLs (base rel : string) : string :=
  if String.eqb rel "" then base
  else (strip_trailing_slashes base ++ "/" ++ strip_leading_slashes rel)%string.

(** The parser first removes leading and trailing C0 controls and spaces,
    then every tab, line feed and carriage return. *)
Definition c0_or_space (c : ascii) : bool := nat_of_ascii c <=? 32.

Fixpoint trim_start (s : string) : string :=
  match s with
  | EmptyString => EmptyString
  | String c r => if c0_or_space c then trim_start r else s
  end.

Fixpoint trim_end (s : string) : string :=
  match s with
  | EmptyString => EmptyString
  | String c r =>
      let r' := trim_end r in
      if String.eqb r' "" && c0_or_space c then EmptyString else String c r'
  end.

Definition tab_or_newline (c : ascii) : bool :=
  Ascii.eqb c "009" || Ascii.eqb c "010" || Ascii.eqb c "013".

Fixpoint remove_tab_newline (s : string) : string :=
  match s with
  | EmptyString => EmptyString
  | String c r =>
      if tab_or_newline c then remove_tab_newline r
      else String c (remove_tab_newline r)
  end.

(** In the path of an http(s) URL, [\] ends a segment as [/] does. *)
Fixpoint backslash_to_slash (s : string) : string :=
  match s with
  | EmptyString => EmptyString
  | String c r =>
      String (if Ascii.eqb c "\" then "/"%char else c) (backslash_to_slash r)
  end.

(** The path percent-encode set: C0 controls, bytes above [~], space,
    the double quote, [#], [<], [>], [?], the backquote, [{] and [}]. *)
Definition path_percent_encode_set (c : ascii) : bool :=
  let n := nat_of_ascii c in
  (n <? 32) || (126 <? n)
  || existsb (Ascii.eqb c) [" "; "034"; "#"; "<"; ">"; "?"; "096"; "{"; "}"]%char.

Fixpoint path_encode (s : string) : string :=
  match s with
  | EmptyString => EmptyString
  | String c r =>
      if path_percent_encode_set c then
        let n := nat_of_ascii c in
        String "%" (String (hex_digit (n / 16)) (String (hex_digit (n mod 16))
          (path_encode r)))
      else String c (path_encode r)
  end.

(** Single-dot and double-dot path segments: [.] and [..], with any dot
    written as [%2e], ASCII case-insensitively. *)
Definition is_single_dot (s : string) : bool :=
  existsb (String.eqb s) ["."; "%2e"; "%2E"].

Definition is_double_dot (s : string) : bool :=
  existsb (String.eqb s)
    [".."; ".%2e"; ".%2E"; "%2e."; "%2E."; "%2e%2e"; "%2e%2E"; "%2E%2e"; "%2E%2E"].

(** The path state: [acc] is the path so far, last segment first. A
    double-dot segment removes the last segment; a dot segment is dropped;
    either, when it ends the path, leaves an empty last segment. *)
Fixpoint resolve_dots (acc : list string) (segs : list string) : list string :=
  match segs with
  | [] => rev acc
  | seg :: rest =>
      let last := match rest with [] => true | _ :: _ => false end in
      let acc' :=
        if is_double_dot seg then (if last then [""] else []) ++ tl acc
        else if is_single_dot seg then (if last then [""] else []) ++ acc
        else seg :: acc in
      resolve_dots acc' rest
  end.

Fixpoint path_serialize (p : list string) : string :=
  match p with
  | [] => ""
  | seg :: r => ("/" ++ seg ++ path_serialize r)%string
  end.

(** The path requested for [url]: the path ends at the first [?] or [#].
    Only a path-absolute URL ([/] followed by neither [/] nor [\]) is
    modelled; any other gives [None]. *)
Definition request_path (url : string) : option string :=
  let u := remove_tab_newline (trim_end (trim_start url)) in
  let p := backslash_to_slash (fst (split_first "?" (fst (split_first "#" u)))) in
  match p with
  | String "/" (String "/" _) => None
  | String "/" r =>
      Some (path_serialize (resolve_dots [] (map path_encode (split_on "/" r))))
  | _ => None
  end.

(** The path [getContentById(id)]'s request reaches. *)
Definition getContentById_request (id : string) : option string :=
  request_path (combineURLs baseURL (getContentById_path id)).

(** A JavaScript value, as far as [getErrorMessage] inspects it. *)
#[warnings="-register-all"]
Inductive JSValue :=
| JUndefined
| JNull
| JBool (b : bool)
| JNum (n : Z)
| JStr (s : string)
| JArr (xs : list JSValue)
| JObj (fields : list (string * JSValue)).

(** Truthiness ([!v] is its negation). *)
Definition truthy (v : JSValue) : bool :=
  match v with
  | JUndefined | JNull => false
  | JBool b => b
  | JNum n => negb (Z.eqb n 0)
  | JStr s => negb (String.eqb s "")
  | JArr _ | JObj _ => true
  end.

(** [v?.k]: a missing property, and any property of a non-object, is
    [undefined]. *)
Definition get (v : JSValue) (k : string) : JSValue :=
  match v with
  | JObj fields =>
      match find (fun p => String.eqb (fst p) k) fields with
      | Some (_, x) => x
      | None => JUndefined
      end
  | _ => JUndefined
  end.

Definition is_object (v : JSValue) : bool :=
  match v with JNull | JArr _ | JObj _ => true | _ => false end.

Section ErrorMessage.
(** [JSON.stringify]; [None] is a thrown exception. *)
Variable json_stringify : JSValue -> option string.

(** [getErrorMessage(err)]. *)
Definition getErrorMessage (err : JSValue) : JSValue :=
  let d := get (get err "response") "data" in
  if negb (truthy d) then
    let m := get err "message" in
    if truthy m then m else JStr "Unexpected error"
  else
    match d with
    | JStr s => JStr s
    | _ =>
        match get d "detail" with
        | JStr s => JStr s
        | dd =>
            let via_detail :=
              if truthy dd && is_object dd then json_stringify dd else None in
            match via_detail with
            | Some s => JStr s
            | None =>
                match json_stringify d with
                | Some s => JStr s
                | None => JStr "Request failed"
                end
            end
        end
    end.
End ErrorMessage.

End ApiClient.

(** [src/client/src/context/AuthContext.tsx]: the session kept in React
    state, the axios default headers and [localStorage].  The file holds two
    [AuthProvider] definitions; this is the first (lines 19-62), the one that
    uses only functions [api/client.ts] defines.  The second one also calls a
    [getCurrentUser] that [api/client.ts] does not export, and is not embedded. *)
Module AuthSession.
Import JsObject.

Record User := mkUser { email : string; name : option string }.

Record Session := mkSession {
  headers : obj;
  storage : obj;
  token : option string;
  user : option User
}.

Section Session.
(** [JSON.stringify] on a user and [JSON.parse] back to one ([None] when it
    throws or yields no user). *)
Variable stringify_user : User -> string.
Variable parse_user : string -> option User.

Definition truthy_str (v : option string) : option string :=
  match v with
  | Some t => if String.eqb t "" then None else Some t
  | None => None
  end.

(** The mount effect of [AuthProvider]. *)
Definition mount (s : Session) : Session :=
  let savedToken := lookup "auth_token" (storage s) in
  let savedUser := lookup "auth_user" (storage s) in
  let s1 :=
    match truthy_str savedToken with
    | Some t => mkSession (ApiClient.setAuthToken (Some t) (headers s)) (storage s)
                          (Some t) (user s)
    | None => s
    end in
  match truthy_str savedUser with
  | Some u =>
      match parse_user u with
      | Some v => mkSession (headers s1) (storage s1) (token s1) (Some v)
      | None => s1
      end
  | None => s1
  end.

(** [login] once [apiLogin] has answered [access_token]. *)
Definition login_done (em access_token : string) (s : Session) : Session :=
  let h := ApiClient.setAuthToken (Some access_token) (headers s) in
  let st := assign "auth_token" access_token (storage s) in
  let u := mkUser em None in
  mkSession h (assign "auth_user" (stringify_user u) st) (Some access_token) (Some u).

(** [logout]. *)
Definition logout (s : Session) : Session :=
  mkSession (ApiClient.setAuthToken None (headers s))
            (delete "auth_user" (delete "auth_token" (storage s))) None None.

(** A page reload: React state and the axios instance start afresh with
    [initial_headers], [localStorage] survives, then the mount effect runs. *)
Definition reload (initial_headers : obj) (s : Session) : Session :=
  mount (mkSession initial_headers (storage s) None None).
End Session.

End AuthSession.

(** [src/client/src/pages/Questions.tsx] beyond [onGenerate]. *)
Module QuestionsAnswers.
Import JsObject.

(** [export type Question]. *)
Record Question := mkQuestion {
  q_type : string;
  q_question : string;
  q_options : option (list string);
  q_correct_answer : option string;
  q_explanation : option string;
  q_difficulty : option string;
  q_bloom_level : option string
}.

(** A numeric index used as a property name: [String(i)]. *)
Definition key (i : nat) : string := NilZero.string_of_uint (Nat.to_uint i).

(** [!!answers[i]]. *)
Definition answered (answers : obj) (i : nat) : bool :=
  match lookup (key i) answers with
  | Some v => negb (String.eqb v "")
  | None => false
  end.

Fixpoint count_answered (answers : obj) (i : nat) (qs : list Question) (acc : nat) : nat :=
  match qs with
  | [] => acc
  | _ :: r => count_answered answers (S i) r (acc + if answered answers i then 1 else 0)
  end.

(** [questions.reduce((acc, _q, i) => acc + (answers[i] ? 1 : 0), 0)]. *)
Definition answeredCount (qs : list Question) (answers : obj) : nat :=
  count_answered answers 0 qs 0.

(** The "Remaining" badge: [Math.max(0, questions.length - answeredCount)]. *)
Definition remaining (qs : list Question) (answers : obj) : Z :=
  Z.max 0 (Z.of_nat (length qs) - Z.of_nat (answeredCount qs answers)).

(** [setAnswers((a) => ({ ...a, [idx]: val }))]. *)
Definition setAnswer (idx : nat) (val : string) (answers : obj) : obj :=
  assign (key idx) val answers.

(** [AnswerSubmitRequest]. *)
Record AnswerSubmitRequest := mkAnswerSubmitRequest {
  questionSetId : string;
  submitted : obj
}.

Inductive SubmitEffect :=
| SubmitSetLoading (b : bool)
| SubmitPost (path : string) (payload : AnswerSubmitRequest).

(** [onSubmit] up to the awaited [submitAnswers] call. *)
Definition onSubmit (qs : list Question) (qsId : string) (answers : obj) : list SubmitEffect :=
  match length qs with
  | 0 => []
  | _ => [SubmitSetLoading true;
          SubmitPost "/answers/submit" (mkAnswerSubmitRequest qsId answers)]
  end.

End QuestionsAnswers.

(** The page links that carry an id in the query string, and how the target
    page reads it back: [useLocation().search] handed to
    [new URLSearchParams(search)] and [.get(name)]. *)
Module Navigation.
Import ApiClient.

(** [navigate(`/feedback?id=${encodeURIComponent(res.id)}`)] in
    [Questions.tsx] ([onSubmit]). *)
Definition feedback_link (id : string) : string :=
  ("/feedback?id=" ++ encodeURIComponent id)%string.

(** [navigate(`/content-view?id=${encodeURIComponent(contentId)}`)] in
    [Content.tsx]. *)
Definition content_view_link (id : string) : string :=
  ("/content-view?id=" ++ encodeURIComponent id)%string.

(** [navigate(`/questions?content_id=${encodeURIComponent(data.id)}`)] in
    [ContentView.tsx]. *)
Definition questions_link (id : string) : string :=
  ("/questions?content_id=" ++ encodeURIComponent id)%string.

(** [location.search]: from the first [?] up to a [#], or [""] when that
    part is empty. *)
Definition location_search (url : string) : string :=
  match split_first "?" url with
  | (_, Some q) =>
      let q' := fst (split_first "#" q) in
      if String.eqb q' "" then "" else String "?" q'
  | (_, None) => ""
  end.

(** [new URLSearchParams(search).get(name)]: a leading [?] is dropped; the
    first pair with that name, [null] as [None]. *)
Definition search_get (search name : string) : option string :=
  let body := match search with String "?" r => r | _ => search end in
  option_map snd (find (fun p => String.eqb (fst p) name) (form_parse body)).

End Navigation.

(* ================================================================== *)
(** ** Part 2: the semantic generation cache *)

Module Cache.

(** Modelled from the spec: the difficulty distribution of a
    GenerationRequest, proportions for easy, medium and hard. *)
Record Distribution := mkDistribution {
  dist_E : Q;
  dist_M : Q;
  dist_H : Q
}.

(** Modelled from the spec: GenerationRequest, the semantically relevant
    subset of a request (scope, count, category labels, distribution). *)
Record GenerationRequest := mkRequest {
  rq_scope : string;
  rq_count : Z;
  rq_types : list string;
  rq_bloom : list string;
  rq_dist : Distribution
}.

(** Modelled from the spec: ArtifactEntry, the persisted record
    [{ id, scope, signature, hash, payload, createdAt, usageCount,
    embeddingVector? }]. *)
Record ArtifactEntry := mkEntry {
  e_id : nat;
  e_scope : string;
  e_signature : string;
  e_hash : string;
  e_payload : string;
  e_createdAt : nat;
  e_usageCount : nat;
  e_embedding : option (list Q)
}.

(** Modelled from the spec: the external collaborators and configuration of
    the cache.  [digest] is the cryptographic digest of KeyBuilder, [score]
    the SimilarityScorer's [score(signature, candidateSignature)], [generate]
    the Generator ([None] is a generation error or malformed output),
    [embed] the optional Embedder, [vector_candidates] the optional
    [vectorCandidates(scope, embedding, limit)] capability of the store (here
    a function of the stored entries), and [candidate_limit] the [limit]
    passed to CandidateRetriever. *)
Record Env := mkEnv {
  digest : string -> string;
  score : string -> string -> Q;
  generate : GenerationRequest -> option string;
  embed : option (string -> list Q);
  vector_candidates : option (list ArtifactEntry -> string -> nat -> list ArtifactEntry);
  candidate_limit : nat
}.

(* ------------------------------------------------------------------ *)
(** *** KeyBuilder *)

(** Lexicographic order on strings, as a boolean [<=]. *)
Definition str_leb (a b : string) : bool :=
  match String_as_OT.compare a b with Gt => false | _ => true end.

Fixpoint insert_sorted (x : string) (l : list string) : list string :=
  match l with
  | [] => [x]
  | y :: r => if str_leb x y then x :: y :: r else y :: insert_sorted x r
  end.

(** Modelled from the spec: sorting of the set-valued fields before
    serialisation. *)
Fixpoint sort_strings (l : list string) : list string :=
  match l with
  | [] => []
  | x :: r => insert_sorted x (sort_strings r)
  end.

Definition render_int (n : Z) : string :=
  NilZero.string_of_int (Z.to_int n).

(** Modelled from the spec: distribution values rendered with one decimal
    (rounded to the nearest tenth). *)
Definition render_tenths (q : Q) : string :=
  let t := Qfloor (q * (10 # 1) + (1 # 2)) in
  let a := Z.abs t in
  ((if (t <? 0)%Z then "-" else "")
   ++ render_int (a / 10) ++ "." ++ render_int (a mod 10))%string.

(** Modelled from the spec: CacheSignature, e.g.
    [content123|count:5|types:A,B|bloom:Apply,Remember|diff:E0.3_M0.5_H0.2]. *)
Definition signature (r : GenerationRequest) : string :=
  (rq_scope r
   ++ "|count:" ++ render_int (rq_count r)
   ++ "|types:" ++ String.concat "," (sort_strings (rq_types r))
   ++ "|bloom:" ++ String.concat "," (sort_strings (rq_bloom r))
   ++ "|diff:E" ++ render_tenths (dist_E (rq_dist r))
   ++ "_M" ++ render_tenths (dist_M (rq_dist r))
   ++ "_H" ++ render_tenths (dist_H (rq_dist r)))%string.

(** Modelled from the spec: [KeyBuilder.build(request) -> (signature, hash)]
    with [hash = digest(scope + "|" + signature)]. *)
Definition build (env : Env) (r : GenerationRequest) : string * string :=
  let sig := signature r in
  (sig, digest env (rq_scope r ++ "|" ++ sig)%string).

Definition key_hash (env : Env) (r : GenerationRequest) : string :=
  snd (build env r).

(* ------------------------------------------------------------------ *)
(** *** ArtifactStore (kept newest first) *)

(** Modelled from the spec: [getByHash(hash)], a point lookup. *)
Definition getByHash (h : string) (store : list ArtifactEntry) : option ArtifactEntry :=
  find (fun e => String.eqb (e_hash e) h) store.

(** Modelled from the spec: [listByScope(scope, limit)], most recent first. *)
Definition listByScope (sc : string) (limit : nat) (store : list ArtifactEntry)
  : list ArtifactEntry :=
  firstn limit (filter (fun e => String.eqb (e_scope e) sc) store).

(** Modelled from the spec: [insert(entry)] with a unique index on [hash];
    [None] is the unique-index violation. *)
Definition insert (e : ArtifactEntry) (store : list ArtifactEntry)
  : option (list ArtifactEntry) :=
  match getByHash (e_hash e) store with
  | Some _ => None
  | None => Some (e :: store)
  end.

Definition with_usage (e : ArtifactEntry) (n : nat) : ArtifactEntry :=
  {| e_id := e_id e; e_scope := e_scope e; e_signature := e_signature e;
     e_hash := e_hash e; e_payload := e_payload e; e_createdAt := e_createdAt e;
     e_usageCount := n; e_embedding := e_embedding e |}.

(** Modelled from the spec: [incrementUsage(id)]. *)
Definition incrementUsage (id : nat) (store : list ArtifactEntry) : list ArtifactEntry :=
  map (fun e => if Nat.eqb (e_id e) id then with_usage e (S (e_usageCount e)) else e)
      store.

(* ------------------------------------------------------------------ *)
(** *** SimilarityScorer and CandidateRetriever *)

(** Modelled from the spec: the configured acceptance threshold 0.90. *)
Definition SIMILARITY_THRESHOLD : Q := 9 # 10.

(** Modelled from the spec: a score is accepted iff [score >= 0.90]. *)
Definition accept (s : Q) : bool := Qle_bool SIMILARITY_THRESHOLD s.

(** Modelled from the spec: the tie-break, [c] (score [sc]) beats the current
    best [b] (score [sb]) on a higher score, or on an equal score and a more
    recent [createdAt]. *)
Definition better (c : ArtifactEntry) (sc : Q) (b : ArtifactEntry) (sb : Q) : bool :=
  negb (Qle_bool sc sb) || (Qeq_bool sc sb && (e_createdAt b <? e_createdAt c)).

Definition consider (sig : string) (sfun : string -> string -> Q)
    (acc : option (ArtifactEntry * Q)) (c : ArtifactEntry) : option (ArtifactEntry * Q) :=
  let sc := sfun sig (e_signature c) in
  if accept sc then
    match acc with
    | None => Some (c, sc)
    | Some (b, sb) => if better c sc b sb then Some (c, sc) else acc
    end
  else acc.

(** Modelled from the spec: the best candidate at or above the threshold. *)
Definition best_match (sfun : string -> string -> Q) (sig : string)
    (cands : list ArtifactEntry) : option (ArtifactEntry * Q) :=
  fold_left (consider sig sfun) cands None.

(** Modelled from the spec: [CandidateRetriever.fetch(scope, limit)]; the
    vector shortlist, when the capability is present, goes through the same
    hard scope filter. *)
Definition fetch (env : Env) (store : list ArtifactEntry) (sc : string)
  : list ArtifactEntry :=
  match vector_candidates env with
  | Some vc => filter (fun e => String.eqb (e_scope e) sc) (vc store sc (candidate_limit env))
  | None => listByScope sc (candidate_limit env) store
  end.

(* ------------------------------------------------------------------ *)
(** *** GenerationOrchestrator *)

(** Modelled from the spec: the [matchType] exposed by [resolveOrGenerate]. *)
Inductive MatchType := Exact | Similar | Generated.

(** Modelled from the spec: the result
    [{ id, payload, cached, matchType, similarity }]. *)
Record Response := mkResponse {
  resp_id : nat;
  resp_payload : string;
  resp_cached : bool;
  resp_matchType : MatchType;
  resp_similarity : Q
}.

(** Modelled from the spec: the error kinds a caller can see; quota is
    checked by the caller, "not found" by other endpoints. *)
Inductive ErrorKind := NotFound | QuotaExceeded | GenerationError.

Definition Outcome : Type := (ErrorKind + Response)%type.

(** Modelled from the spec: the per-request state machine
    [START -> BUILD_KEY -> CHECK_EXACT -> CHECK_SIMILAR -> ACQUIRE_LOCK ->
    GENERATE -> PERSIST -> RELEASE_LOCK -> DONE], with [AWAIT_OR_RECHECK]
    for a lock held by another request.  [Generating] is the state in which
    the Generator call is in flight; [Release o] releases the lock and
    answers [o]. *)
Inductive Phase :=
| Start
| CheckExact
| CheckSimilar
| AcquireLock
| AwaitOrRecheck
| Generating
| Persist (p : string)
| Release (o : Outcome)
| Done (o : Outcome).

Record Thread := mkThread {
  t_req : GenerationRequest;
  t_phase : Phase
}.

(** Modelled from the spec: the shared state, the ArtifactStore, the
    per-key lock records (a lock has no expiry here: its TTL exceeds the
    generation latency), a clock for [createdAt], the next entry id, and the
    log of Generator invocations (one hash per call). *)
Record World := mkWorld {
  w_store : list ArtifactEntry;
  w_locks : list string;
  w_clock : nat;
  w_next_id : nat;
  w_gen_calls : list string
}.

Definition set_store (w : World) (s : list ArtifactEntry) : World :=
  {| w_store := s; w_locks := w_locks w; w_clock := w_clock w;
     w_next_id := w_next_id w; w_gen_calls := w_gen_calls w |}.

Definition set_locks (w : World) (l : list string) : World :=
  {| w_store := w_store w; w_locks := l; w_clock := w_clock w;
     w_next_id := w_next_id w; w_gen_calls := w_gen_calls w |}.

Definition lock_held (h : string) (locks : list string) : bool :=
  existsb (String.eqb h) locks.

Definition unlock (h : string) (locks : list string) : list string :=
  filter (fun x => negb (String.eqb x h)) locks.

Definition reuse (w : World) (e : ArtifactEntry) (m : MatchType) (s : Q) : World * Phase :=
  (set_store w (incrementUsage (e_id e) (w_store w)),
   Done (inr {| resp_id := e_id e; resp_payload := e_payload e; resp_cached := true;
                resp_matchType := m; resp_similarity := s |})).

(** Modelled from the spec: one step of one request.  [None] when the
    request is finished or waits on a lock held by another request. *)
Definition step_phase (env : Env) (w : World) (r : GenerationRequest) (ph : Phase)
  : option (World * Phase) :=
  let '(sig, h) := build env r in
  match ph with
  | Start => Some (w, CheckExact)
  | CheckExact =>
      match getByHash h (w_store w) with
      | Some e => Some (reuse w e Exact 1)
      | None => Some (w, CheckSimilar)
      end
  | CheckSimilar =>
      match best_match (score env) sig (fetch env (w_store w) (rq_scope r)) with
      | Some (e, s) => Some (reuse w e Similar s)
      | None => Some (w, AcquireLock)
      end
  | AcquireLock =>
      if lock_held h (w_locks w) then Some (w, AwaitOrRecheck)
      else Some ({| w_store := w_store w; w_locks := h :: w_locks w;
                    w_clock := w_clock w; w_next_id := w_next_id w;
                    w_gen_calls := h :: w_gen_calls w |}, Generating)
  | AwaitOrRecheck =>
      if lock_held h (w_locks w) then None else Some (w, CheckExact)
  | Generating =>
      match generate env r with
      | Some p => Some (w, Persist p)
      | None => Some (w, Release (inl GenerationError))
      end
  | Persist p =>
      let e := {| e_id := w_next_id w; e_scope := rq_scope r; e_signature := sig;
                  e_hash := h; e_payload := p; e_createdAt := w_clock w;
                  e_usageCount := 0;
                  e_embedding := option_map (fun f => f p) (embed env) |} in
      match insert e (w_store w) with
      | Some s' =>
          Some ({| w_store := s'; w_locks := w_locks w; w_clock := S (w_clock w);
                   w_next_id := S (w_next_id w); w_gen_calls := w_gen_calls w |},
                Release (inr {| resp_id := e_id e; resp_payload := p;
                                resp_cached := false; resp_matchType := Generated;
                                resp_similarity := 0 |}))
      | None =>
          (* unique-index violation: the winner's entry is returned *)
          match getByHash h (w_store w) with
          | Some win =>
              Some (w, Release (inr {| resp_id := e_id win; resp_payload := e_payload win;
                                       resp_cached := true; resp_matchType := Exact;
                                       resp_similarity := 1 |}))
          | None => Some (w, Release (inl GenerationError))
          end
      end
  | Release o => Some (set_locks w (unlock h (w_locks w)), Done o)
  | Done _ => None
  end.

Definition step_thread (env : Env) (w : World) (t : Thread) : option (World * Thread) :=
  match step_phase env w (t_req t) (t_phase t) with
  | Some (w', ph') => Some (w', mkThread (t_req t) ph')
  | None => None
  end.

(** Modelled from the spec: the system of concurrent requests; any
    interleaving of their steps is possible. *)
Definition Config : Type := (World * list Thread)%type.

Fixpoint set_nth {A} (i : nat) (x : A) (l : list A) : list A :=
  match l, i with
  | [], _ => []
  | _ :: r, 0 => x :: r
  | y :: r, S j => y :: set_nth j x r
  end.

Definition step_at (env : Env) (i : nat) (c : Config) : option Config :=
  match nth_error (snd c) i with
  | Some t =>
      match step_thread env (fst c) t with
      | Some (w', t') => Some (w', set_nth i t' (snd c))
      | None => None
      end
  | None => None
  end.

(** A schedule lists which request moves next; a request that cannot move
    is skipped. *)
Definition run (env : Env) (sched : list nat) (c : Config) : Config :=
  fold_left (fun c i => match step_at env i c with Some c' => c' | None => c end)
            sched c.

Definition init (store : list ArtifactEntry) (reqs : list GenerationRequest) : Config :=
  ({| w_store := store; w_locks := []; w_clock := 0;
      w_next_id := length store; w_gen_calls := [] |},
   map (fun r => mkThread r Start) reqs).

(** Modelled from the spec: [resolveOrGenerate(request)], one request run to
    its answer with no other request active. *)
Fixpoint drive (env : Env) (fuel : nat) (w : World) (t : Thread)
  : option (World * Outcome) :=
  match t_phase t with
  | Done o => Some (w, o)
  | _ =>
      match fuel with
      | 0 => None
      | S f =>
          match step_thread env w t with
          | Some (w', t') => drive env f w' t'
          | None => None
          end
      end
  end.

Definition resolveOrGenerate (env : Env) (r : GenerationRequest) (w : World)
  : option (World * Outcome) :=
  drive env 8 w (mkThread r Start).

(** Requests whose Generator call is in flight for hash [h]. *)
Definition in_flight (env : Env) (h : string) (ts : list Thread) : nat :=
  length (filter (fun t => match t_phase t with
                           | Generating => String.eqb (key_hash env (t_req t)) h
                           | _ => false
                           end) ts).

Definition gen_count (h : string) (w : World) : nat :=
  count_occ string_dec (w_gen_calls w) h.

End Cache.

(* ================================================================== *)
(** ** Properties of the client helpers *)

Module PiiFacts.
Import Pii.

Lemma set_add_NoDup (acc : list string) (x : string) :
  NoDup acc -> NoDup (set_add acc x).
Proof.
  intros Hnd. unfold set_add.
  destruct (existsb (String.eqb x) acc) eqn:Hex; [exact Hnd|].
  apply (Permutation_NoDup (l := x :: acc)).
  - apply Permutation_cons_append.
  - constructor; [|exact Hnd].
    intro Hin. assert (existsb (String.eqb x) acc = true) as Ht.
    { apply existsb_exists. exists x. split; [exact Hin|apply String.eqb_refl]. }
    congruence.
Qed.

Lemma fold_set_add_NoDup (xs acc : list string) :
  NoDup acc -> NoDup (fold_left set_add xs acc).
Proof.
  revert acc; induction xs as [|x r IH]; intros acc Hnd; simpl.
  - exact Hnd.
  - apply IH, set_add_NoDup, Hnd.
Qed.

Lemma array_from_set_NoDup (xs : list string) : NoDup (array_from_set xs).
Proof. apply fold_set_add_NoDup; constructor. Qed.

(** C10: [hasPII(text)] holds exactly when [detectPII(text)] is non-empty,
    [detectPII] never repeats a label, and [undefined] and [""] carry no
    PII, whatever the regular expressions match. *)
Theorem detectPII_hasPII_agree :
  forall (EMAIL_test PHONE_test SSN_test IBAN_test : string -> bool)
         (cc_matches : string -> list string) (text : option string),
    let d := detectPII EMAIL_test PHONE_test SSN_test IBAN_test cc_matches in
    let p := hasPII EMAIL_test PHONE_test SSN_test IBAN_test cc_matches in
    (p text = true <-> d text <> []) /\ NoDup (d text)
    /\ d None = [] /\ d (Some "") = [] /\ p None = false /\ p (Some "") = false.
Proof.
  intros EMAIL_test PHONE_test SSN_test IBAN_test cc_matches text d p.
  subst d p. unfold hasPII. repeat split.
  - destruct (detectPII _ _ _ _ _ text); simpl; [discriminate|]. intros _ H; discriminate.
  - intro Hne. destruct (detectPII _ _ _ _ _ text); [contradiction|reflexivity].
  - unfold detectPII. destruct text as [t|]; [|constructor].
    destruct (String.eqb t ""); [constructor|apply array_from_set_NoDup].
Qed.

End PiiFacts.

Module QuestionsPageFacts.
Import QuestionsPage.

(** C9: with a non-empty [contentId], [onGenerate] posts one request to
    [/questions/generate], and every request it posts has
    [questionTypes = [type]], [questionCount = count] and leaves
    [bloomLevels] and [difficultyDistribution] unset. *)
Theorem onGenerate_request_fields :
  forall s : PageState, st_contentId s <> "" ->
    (exists p, In (Post "/questions/generate" p) (onGenerate s))
    /\ forall path p, In (Post path p) (onGenerate s) ->
         contentId p = st_contentId s
         /\ questionTypes p = Some [st_type s]
         /\ questionCount p = Some (st_count s)
         /\ bloomLevels p = None
         /\ difficultyDistribution p = None.
Proof.
  intros s Hne. unfold onGenerate.
  destruct (String.eqb_spec (st_contentId s) "") as [Heq|_]; [contradiction|].
  split.
  - eexists. simpl. right; right; left. reflexivity.
  - intros path p Hin. simpl in Hin.
    destruct Hin as [H|[H|[H|[]]]]; try discriminate.
    injection H as _ <-. simpl. repeat split.
Qed.

Lemma onGenerate_request_fields_witness :
  "c1" <> "" /\
  ((exists p, In (Post "/questions/generate" p)
                 (onGenerate (mkPageState "c1" 5 "Multiple Choice")))
   /\ forall path p, In (Post path p) (onGenerate (mkPageState "c1" 5 "Multiple Choice")) ->
        contentId p = "c1" /\ questionTypes p = Some ["Multiple Choice"]
        /\ questionCount p = Some 5%Z /\ bloomLevels p = None
        /\ difficultyDistribution p = None).
Proof.
  split; [discriminate|].
  apply (onGenerate_request_fields (mkPageState "c1" 5 "Multiple Choice")).
  discriminate.
Defined.

End QuestionsPageFacts.

(* ================================================================== *)
(** ** KeyBuilder: canonical signatures *)

Module KeyBuilderFacts.
Import Cache.

Definition sle (a b : string) : Prop := str_leb a b = true.

Lemma str_leb_iff (a b : string) :
  str_leb a b = true <-> a = b \/ String_as_OT.lt a b.
Proof.
  unfold str_leb.
  destruct (String_as_OT.compare_spec a b) as [E|L|G]; split; intro H; auto.
  - discriminate.
  - exfalso. destruct H as [->|L'].
    + exact (StrictOrder_Irreflexive _ G).
    + exact (StrictOrder_Irreflexive _ (StrictOrder_Transitive _ _ _ G L')).
Qed.

Lemma str_leb_total (a b : string) : str_leb a b = false -> str_leb b a = true.
Proof.
  unfold str_leb. intro H.
  destruct (String_as_OT.compare_spec a b) as [E|L|G]; try discriminate.
  apply str_leb_iff. right. exact G.
Qed.

Lemma str_leb_antisym (a b : string) : sle a b -> sle b a -> a = b.
Proof.
  unfold sle. rewrite !str_leb_iff.
  intros [->|L] [E|L']; auto.
  exfalso. exact (StrictOrder_Irreflexive _ (StrictOrder_Transitive _ _ _ L L')).
Qed.

Lemma str_leb_trans (a b c : string) : sle a b -> sle b c -> sle a c.
Proof.
  unfold sle. rewrite !str_leb_iff.
  intros [->|L] [<-|L']; auto.
  right. exact (StrictOrder_Transitive _ _ _ L L').
Qed.

Lemma insert_sorted_perm (x : string) (l : list string) :
  Permutation (x :: l) (insert_sorted x l).
Proof.
  induction l as [|y r IH]; simpl; [reflexivity|].
  destruct (str_leb x y); [reflexivity|].
  rewrite perm_swap. constructor. exact IH.
Qed.

Lemma sort_strings_perm (l : list string) : Permutation l (sort_strings l).
Proof.
  induction l as [|x r IH]; simpl; [constructor|].
  rewrite <- insert_sorted_perm. constructor. exact IH.
Qed.

Lemma insert_sorted_HdRel (x y : string) (l : list string) :
  HdRel sle y l -> sle y x -> HdRel sle y (insert_sorted x l).
Proof.
  intros Hd Hyx. destruct l as [|z r]; simpl.
  - constructor. exact Hyx.
  - destruct (str_leb x z); constructor; [exact Hyx|].
    inversion Hd; assumption.
Qed.

Lemma insert_sorted_Sorted (x : string) (l : list string) :
  Sorted sle l -> Sorted sle (insert_sorted x l).
Proof.
  induction l as [|y r IH]; intro Hs; simpl.
  - repeat constructor.
  - destruct (str_leb x y) eqn:Hxy.
    + constructor; [exact Hs|]. constructor. exact Hxy.
    + apply Sorted_inv in Hs as [Hr Hd].
      constructor; [apply IH, Hr|].
      apply insert_sorted_HdRel; [exact Hd|]. apply str_leb_total, Hxy.
Qed.

Lemma sort_strings_sorted (l : list string) : StronglySorted sle (sort_strings l).
Proof.
  apply Sorted_StronglySorted; [intros a b c; apply str_leb_trans|].
  induction l as [|x r IH]; simpl; [constructor|].
  apply insert_sorted_Sorted, IH.
Qed.

Lemma strongly_sorted_perm_eq (l1 l2 : list string) :
  StronglySorted sle l1 -> StronglySorted sle l2 -> Permutation l1 l2 -> l1 = l2.
Proof.
  revert l2. induction l1 as [|a r1 IH]; intros l2 S1 S2 P.
  - symmetry. apply Permutation_nil, P.
  - destruct l2 as [|b r2]; [apply Permutation_sym, Permutation_nil in P; discriminate|].
    apply StronglySorted_inv in S1 as [S1 F1].
    apply StronglySorted_inv in S2 as [S2 F2].
    assert (a = b) as <-.
    { assert (Ha : In a (b :: r2)) by (apply (Permutation_in _ P); left; reflexivity).
      assert (Hb : In b (a :: r1)) by (apply (Permutation_in _ (Permutation_sym P)); left; reflexivity).
      destruct Ha as [->|Ha]; [reflexivity|].
      destruct Hb as [->|Hb]; [reflexivity|].
      apply str_leb_antisym.
      - exact (proj1 (Forall_forall _ _) F1 b Hb).
      - exact (proj1 (Forall_forall _ _) F2 a Ha). }
    f_equal. apply IH; auto. apply Permutation_cons_inv in P. exact P.
Qed.

(** Sorting makes the serialisation of a set-valued field independent of
    the order of its elements. *)
Lemma sort_strings_perm_eq (l1 l2 : list string) :
  Permutation l1 l2 -> sort_strings l1 = sort_strings l2.
Proof.
  intro P. apply strongly_sorted_perm_eq; try apply sort_strings_sorted.
  rewrite <- !sort_strings_perm. exact P.
Qed.

Lemma render_tenths_Qeq (q1 q2 : Q) : (q1 == q2)%Q -> render_tenths q1 = render_tenths q2.
Proof.
  intro H. unfold render_tenths.
  assert (E : Qfloor (q1 * (10 # 1) + (1 # 2)) = Qfloor (q2 * (10 # 1) + (1 # 2))).
  { apply Qfloor_comp. rewrite H. reflexivity. }
  rewrite E. reflexivity.
Qed.

(** C2: two requests with the same scope and count, the same type and Bloom
    labels up to their order, and the same distribution get byte-equal
    signatures and equal hashes. *)
Theorem build_order_independent :
  forall (env : Env) (r1 r2 : GenerationRequest),
    rq_scope r1 = rq_scope r2 ->
    rq_count r1 = rq_count r2 ->
    Permutation (rq_types r1) (rq_types r2) ->
    Permutation (rq_bloom r1) (rq_bloom r2) ->
    (dist_E (rq_dist r1) == dist_E (rq_dist r2))%Q ->
    (dist_M (rq_dist r1) == dist_M (rq_dist r2))%Q ->
    (dist_H (rq_dist r1) == dist_H (rq_dist r2))%Q ->
    signature r1 = signature r2 /\ build env r1 = build env r2
    /\ key_hash env r1 = key_hash env r2.
Proof.
  intros env r1 r2 Hs Hc Ht Hb HE HM HH.
  assert (Hsig : signature r1 = signature r2).
  { unfold signature.
    rewrite Hs, Hc, (sort_strings_perm_eq _ _ Ht), (sort_strings_perm_eq _ _ Hb),
      (render_tenths_Qeq _ _ HE), (render_tenths_Qeq _ _ HM), (render_tenths_Qeq _ _ HH).
    reflexivity. }
  assert (Hbuild : build env r1 = build env r2).
  { unfold build. rewrite Hsig, Hs. reflexivity. }
  split; [exact Hsig|]. split; [exact Hbuild|].
  unfold key_hash. rewrite Hbuild. reflexivity.
Qed.

(** The example request of the specification and its reordered variant. *)
Definition example_request (bloom : list string) : GenerationRequest :=
  mkRequest "content123" 5 ["Multiple Choice"; "Short Answer"] bloom
            (mkDistribution (3 # 10) (5 # 10) (2 # 10)).

Definition example_env : Env :=
  mkEnv (fun s => s) (fun _ _ => 0%Q) (fun _ => Some "questions") None None 10.

Lemma example_signature :
  signature (example_request ["Apply"; "Remember"])
  = "content123|count:5|types:Multiple Choice,Short Answer|bloom:Apply,Remember|diff:E0.3_M0.5_H0.2".
Proof. reflexivity. Qed.

Lemma build_order_independent_witness :
  Permutation ["Apply"; "Remember"] ["Remember"; "Apply"] /\
  signature (example_request ["Apply"; "Remember"])
  = signature (example_request ["Remember"; "Apply"])
  /\ build example_env (example_request ["Apply"; "Remember"])
     = build example_env (example_request ["Remember"; "Apply"])
  /\ key_hash example_env (example_request ["Apply"; "Remember"])
     = key_hash example_env (example_request ["Remember"; "Apply"]).
Proof.
  split; [apply perm_swap|].
  apply build_order_independent; try reflexivity.
  apply perm_swap.
Defined.

End KeyBuilderFacts.

(* ================================================================== *)
(** ** SimilarityScorer: threshold and tie-break *)

Module ScorerFacts.
Import Cache.

Lemma accept_iff (s : Q) : accept s = true <-> (9 # 10 <= s)%Q.
Proof. unfold accept, SIMILARITY_THRESHOLD. apply Qle_bool_iff. Qed.

(** C3: a scored candidate is accepted exactly when its score is at least
    0.90, both as a score and as the only candidate of [best_match]; 0.90 is
    accepted and 0.899 is not. *)
Theorem threshold_inclusive :
  (forall s : Q, accept s = true <-> (9 # 10 <= s)%Q)
  /\ (forall (sfun : string -> string -> Q) (sig : string) (e : ArtifactEntry),
        best_match sfun sig [e] <> None <-> (9 # 10 <= sfun sig (e_signature e))%Q)
  /\ accept (90 # 100) = true
  /\ accept (899 # 1000) = false.
Proof.
  split; [exact accept_iff|]. split.
  - intros sfun sig e. unfold best_match. simpl. unfold consider.
    rewrite <- accept_iff.
    destruct (accept (sfun sig (e_signature e))); split; intro H;
      try reflexivity; try discriminate; congruence.
  - split; reflexivity.
Qed.

(** [c] is ranked no higher than [b] (score [sb]): a lower score, or the
    same score and a creation time no later. *)
Definition dominated (sfun : string -> string -> Q) (sig : string)
    (c b : ArtifactEntry) (sb : Q) : Prop :=
  (sfun sig (e_signature c) < sb)%Q
  \/ ((sfun sig (e_signature c) == sb)%Q /\ e_createdAt c <= e_createdAt b).

Definition best_inv (sfun : string -> string -> Q) (sig : string)
    (seen : list ArtifactEntry) (acc : option (ArtifactEntry * Q)) : Prop :=
  match acc with
  | None => forall c, In c seen -> accept (sfun sig (e_signature c)) = false
  | Some (b, sb) =>
      In b seen /\ sb = sfun sig (e_signature b) /\ accept sb = true
      /\ forall c, In c seen -> accept (sfun sig (e_signature c)) = true ->
                   dominated sfun sig c b sb
  end.

Lemma better_dominates (sfun : string -> string -> Q) (sig : string)
    (x b c : ArtifactEntry) (sb : Q) :
  better c (sfun sig (e_signature c)) b sb = true ->
  dominated sfun sig x b sb -> dominated sfun sig x c (sfun sig (e_signature c)).
Proof.
  unfold better, dominated. set (sc := sfun sig (e_signature c)).
  intros Hbt Hx. apply orb_true_iff in Hbt as [Hgt|Heq].
  - apply negb_true_iff in Hgt.
    assert (Hlt : (sb < sc)%Q).
    { apply Qnot_le_lt. intro Hle. apply Qle_bool_iff in Hle. congruence. }
    left. destruct Hx as [Hx|[Hx _]].
    + apply Qlt_trans with sb; assumption.
    + rewrite Hx. exact Hlt.
  - apply andb_true_iff in Heq as [Hq Ht]. apply Qeq_bool_iff in Hq.
    apply Nat.ltb_lt in Ht.
    destruct Hx as [Hx|[Hx Hc]].
    + left. rewrite Hq. exact Hx.
    + right. split; [rewrite Hq; exact Hx|lia].
Qed.

Lemma not_better_dominated (sfun : string -> string -> Q) (sig : string)
    (b c : ArtifactEntry) (sb : Q) :
  better c (sfun sig (e_signature c)) b sb = false -> dominated sfun sig c b sb.
Proof.
  unfold better, dominated. set (sc := sfun sig (e_signature c)).
  intro H. apply orb_false_iff in H as [Hle Hq].
  apply negb_false_iff, Qle_bool_iff in Hle.
  destruct (Qeq_bool sc sb) eqn:E.
  - apply Qeq_bool_iff in E. simpl in Hq. apply Nat.ltb_ge in Hq.
    right. split; [exact E|exact Hq].
  - left. apply Qle_lteq in Hle as [Hlt|Heq]; [exact Hlt|].
    apply Qeq_bool_iff in Heq. congruence.
Qed.

Lemma consider_inv (sfun : string -> string -> Q) (sig : string)
    (seen : list ArtifactEntry) (acc : option (ArtifactEntry * Q)) (c : ArtifactEntry) :
  best_inv sfun sig seen acc ->
  best_inv sfun sig (seen ++ [c]) (consider sig sfun acc c).
Proof.
  unfold consider. intro Hinv.
  destruct (accept (sfun sig (e_signature c))) eqn:Hc.
  - destruct acc as [[b sb]|].
    + destruct Hinv as (Hb & Hsb & Hab & Hall).
      destruct (better c (sfun sig (e_signature c)) b sb) eqn:Hbt.
      * simpl. split; [apply in_or_app; right; left; reflexivity|].
        split; [reflexivity|]. split; [exact Hc|].
        intros x Hx Hax. apply in_app_or in Hx as [Hx|[<-|[]]].
        -- apply (better_dominates _ _ _ b _ sb Hbt). apply Hall; assumption.
        -- right. split; [reflexivity|lia].
      * simpl. split; [apply in_or_app; left; exact Hb|].
        split; [exact Hsb|]. split; [exact Hab|].
        intros x Hx Hax. apply in_app_or in Hx as [Hx|[<-|[]]].
        -- apply Hall; assumption.
        -- apply not_better_dominated. exact Hbt.
    + simpl. split; [apply in_or_app; right; left; reflexivity|].
      split; [reflexivity|]. split; [exact Hc|].
      intros x Hx Hax. apply in_app_or in Hx as [Hx|[<-|[]]].
      * rewrite (Hinv x Hx) in Hax. discriminate.
      * right. split; [reflexivity|lia].
  - destruct acc as [[b sb]|].
    + destruct Hinv as (Hb & Hsb & Hab & Hall).
      split; [apply in_or_app; left; exact Hb|].
      split; [exact Hsb|]. split; [exact Hab|].
      intros x Hx Hax. apply in_app_or in Hx as [Hx|[<-|[]]].
      * apply Hall; assumption.
      * congruence.
    + intros x Hx. apply in_app_or in Hx as [Hx|[<-|[]]]; [apply Hinv, Hx|exact Hc].
Qed.

Lemma fold_consider_inv (sfun : string -> string -> Q) (sig : string)
    (cands seen : list ArtifactEntry) (acc : option (ArtifactEntry * Q)) :
  best_inv sfun sig seen acc ->
  best_inv sfun sig (seen ++ cands) (fold_left (consider sig sfun) cands acc).
Proof.
  revert seen acc. induction cands as [|c r IH]; intros seen acc Hinv; simpl.
  - rewrite app_nil_r. exact Hinv.
  - replace (seen ++ c :: r) with ((seen ++ [c]) ++ r)
      by (rewrite <- app_assoc; reflexivity).
    apply IH, consider_inv, Hinv.
Qed.

Lemma best_match_inv (sfun : string -> string -> Q) (sig : string)
    (cands : list ArtifactEntry) :
  best_inv sfun sig cands (best_match sfun sig cands).
Proof.
  unfold best_match. apply (fold_consider_inv _ _ cands [] None). intros c [].
Qed.

(** What [best_match] returns: a candidate, with its own score, that clears
    the threshold and ranks at least as high as every candidate that does. *)
Lemma best_match_spec :
  forall (sfun : string -> string -> Q) (sig : string) (cands : list ArtifactEntry)
         (e : ArtifactEntry) (s : Q),
    best_match sfun sig cands = Some (e, s) ->
    In e cands /\ s = sfun sig (e_signature e) /\ (9 # 10 <= s)%Q
    /\ forall c, In c cands -> (9 # 10 <= sfun sig (e_signature c))%Q ->
         (sfun sig (e_signature c) < s)%Q
         \/ ((sfun sig (e_signature c) == s)%Q /\ e_createdAt c <= e_createdAt e).
Proof.
  intros sfun sig cands e s H.
  pose proof (best_match_inv sfun sig cands) as Hinv. rewrite H in Hinv.
  destruct Hinv as (Hin & Hs & Ha & Hall).
  split; [exact Hin|]. split; [exact Hs|]. split; [apply accept_iff, Ha|].
  intros c Hc Hac. apply (Hall c Hc). apply accept_iff, Hac.
Qed.

Lemma best_match_complete (sfun : string -> string -> Q) (sig : string)
    (cands : list ArtifactEntry) (c : ArtifactEntry) :
  In c cands -> accept (sfun sig (e_signature c)) = true ->
  best_match sfun sig cands <> None.
Proof.
  intros Hc Hac Hn. pose proof (best_match_inv sfun sig cands) as Hinv.
  rewrite Hn in Hinv. rewrite (Hinv c Hc) in Hac. discriminate.
Qed.

(** C7: whenever some candidate scores at or above the threshold, a
    candidate [e] with score [s] is chosen that clears it, and every
    candidate that clears it has a lower score than [e], or the same score
    and a [createdAt] no later than [e]'s: the highest score wins and a tie
    goes to the most recently created entry. *)
Theorem best_match_tie_break :
  forall (sfun : string -> string -> Q) (sig : string) (cands : list ArtifactEntry),
    (exists c, In c cands /\ (9 # 10 <= sfun sig (e_signature c))%Q) ->
    exists e s, best_match sfun sig cands = Some (e, s)
    /\ In e cands /\ s = sfun sig (e_signature e) /\ (9 # 10 <= s)%Q
    /\ forall c, In c cands -> (9 # 10 <= sfun sig (e_signature c))%Q ->
         (sfun sig (e_signature c) < s)%Q
         \/ ((sfun sig (e_signature c) == s)%Q /\ e_createdAt c <= e_createdAt e).
Proof.
  intros sfun sig cands [c [Hc Hac]].
  destruct (best_match sfun sig cands) as [[e s]|] eqn:Hb.
  - exists e, s. split; [reflexivity|]. apply best_match_spec, Hb.
  - exfalso. apply (best_match_complete sfun sig cands c Hc); [|exact Hb].
    apply accept_iff, Hac.
Qed.

Definition tie_entry (id : nat) (sig : string) (created : nat) : ArtifactEntry :=
  mkEntry id "content123" sig sig "questions" created 0 None.

Definition tie_score (_ cand : string) : Q :=
  if String.eqb cand "older" then 95 # 100
  else if String.eqb cand "newer" then 95 # 100
  else if String.eqb cand "lower" then 92 # 100
  else 5 # 10.

Definition tie_cands : list ArtifactEntry :=
  [tie_entry 0 "lower" 5; tie_entry 1 "older" 1; tie_entry 2 "newer" 3;
   tie_entry 3 "other" 9].

Lemma best_match_tie_break_witness :
  (exists c, In c tie_cands /\ (9 # 10 <= tie_score "req" (e_signature c))%Q) /\
  exists e s, best_match tie_score "req" tie_cands = Some (e, s)
    /\ In e tie_cands /\ s = tie_score "req" (e_signature e) /\ (9 # 10 <= s)%Q
    /\ forall c, In c tie_cands -> (9 # 10 <= tie_score "req" (e_signature c))%Q ->
         (tie_score "req" (e_signature c) < s)%Q
         \/ ((tie_score "req" (e_signature c) == s)%Q /\ e_createdAt c <= e_createdAt e).
Proof.
  assert (Hex : exists c, In c tie_cands /\ (9 # 10 <= tie_score "req" (e_signature c))%Q).
  { exists (tie_entry 2 "newer" 3). split; [simpl; auto|]. vm_compute. discriminate. }
  split; [exact Hex|]. apply best_match_tie_break. exact Hex.
Defined.

(** On the tie above the most recent entry is the one chosen. *)
Example tie_break_picks_newer :
  best_match tie_score "req" tie_cands = Some (tie_entry 2 "newer" 3, 95 # 100).
Proof. reflexivity. Qed.

End ScorerFacts.

(* ================================================================== *)
(** ** GenerationOrchestrator: the per-key lock *)

Module LockFacts.
Import Cache.

(** The phases in which a request holds the lock of its hash. *)
Definition holding (ph : Phase) : bool :=
  match ph with
  | Generating | Persist _ | Release _ => true
  | _ => false
  end.

Definition holder_ind (env : Env) (h : string) (t : Thread) : nat :=
  if holding (t_phase t) && String.eqb (key_hash env (t_req t)) h then 1 else 0.

Definition holders (env : Env) (h : string) (ts : list Thread) : nat :=
  list_sum (map (holder_ind env h) ts).

(** At most one holder per hash, and none when its lock is free. *)
Definition lock_inv (env : Env) (c : Config) : Prop :=
  forall h, holders env h (snd c) <= 1
            /\ (lock_held h (w_locks (fst c)) = false -> holders env h (snd c) = 0).

Ltac destruct_matches_in H :=
  repeat match type of H with
         | context [match ?x with _ => _ end] => destruct x eqn:?
         end.

Lemma step_phase_lock_cases (env : Env) (w w' : World) (r : GenerationRequest)
    (ph ph' : Phase) :
  step_phase env w r ph = Some (w', ph') ->
  (holding ph = holding ph' /\ w_locks w' = w_locks w)
  \/ (ph = AcquireLock /\ ph' = Generating
      /\ lock_held (key_hash env r) (w_locks w) = false
      /\ w_locks w' = key_hash env r :: w_locks w)
  \/ (exists o, ph = Release o /\ ph' = Done o
                /\ w_locks w' = unlock (key_hash env r) (w_locks w)).
Proof.
  unfold step_phase, key_hash. destruct (build env r) as [sig h]. simpl.
  intro H. destruct ph; destruct_matches_in H;
    inversion H; subst; clear H; simpl;
    first [ left; split; reflexivity
          | right; left; repeat split; assumption
          | right; right; eexists; repeat split ].
Qed.

Lemma list_sum_set_nth {A} (f : A -> nat) (i : nat) (x y : A) (l : list A) :
  nth_error l i = Some x ->
  list_sum (map f (set_nth i y l)) + f x = list_sum (map f l) + f y.
Proof.
  revert i. induction l as [|z r IH]; intros i Hn; destruct i; simpl in *;
    try discriminate.
  - injection Hn as ->. lia.
  - specialize (IH i Hn). lia.
Qed.

Lemma lock_held_cons_other (h k : string) (l : list string) :
  h <> k -> lock_held h (k :: l) = lock_held h l.
Proof.
  intro Hne. unfold lock_held. simpl.
  destruct (String.eqb_spec h k); [contradiction|reflexivity].
Qed.

Lemma lock_held_cons_self (h : string) (l : list string) :
  lock_held h (h :: l) = true.
Proof. unfold lock_held. simpl. rewrite String.eqb_refl. reflexivity. Qed.

Lemma lock_held_unlock_other (h k : string) (l : list string) :
  h <> k -> lock_held h (unlock k l) = lock_held h l.
Proof.
  intro Hne. unfold lock_held, unlock. induction l as [|x r IH]; simpl; [reflexivity|].
  destruct (String.eqb_spec x k) as [->|Hxk]; simpl.
  - destruct (String.eqb_spec h k); [contradiction|]. exact IH.
  - rewrite IH. reflexivity.
Qed.

Lemma lock_held_unlock_self (h : string) (l : list string) :
  lock_held h (unlock h l) = false.
Proof.
  unfold lock_held, unlock. induction l as [|x r IH]; simpl; [reflexivity|].
  destruct (String.eqb_spec x h) as [->|Hxh]; simpl; [exact IH|].
  destruct (String.eqb_spec h x) as [->|]; [contradiction|]. exact IH.
Qed.

Lemma step_at_lock_inv (env : Env) (i : nat) (c c' : Config) :
  lock_inv env c -> step_at env i c = Some c' -> lock_inv env c'.
Proof.
  destruct c as [w ts]. unfold step_at. simpl.
  destruct (nth_error ts i) as [t|] eqn:Hnth; [|discriminate].
  unfold step_thread.
  destruct (step_phase env w (t_req t) (t_phase t)) as [[w' ph']|] eqn:Hst;
    [|discriminate].
  intros Hinv Hc. injection Hc as <-. intro h0. simpl.
  set (t' := mkThread (t_req t) ph').
  pose proof (list_sum_set_nth (holder_ind env h0) i t t' ts Hnth) as Hsum.
  fold (holders env h0 ts) in Hsum. fold (holders env h0 (set_nth i t' ts)) in Hsum.
  destruct (Hinv h0) as [Hle Hfree]. simpl in Hle, Hfree.
  unfold holder_ind in Hsum. subst t'. simpl in Hsum.
  destruct (step_phase_lock_cases env w w' (t_req t) (t_phase t) ph' Hst)
    as [[Hh Hl]|[(Hph & Hph' & Hfr & Hl)|(o & Hph & Hph' & Hl)]];
    [|subst ph'..]; set (k := key_hash env (t_req t)) in *.
  - rewrite Hh in Hsum. rewrite Hl. split; [lia|]. intro Hf. specialize (Hfree Hf). lia.
  - rewrite Hph in Hsum. simpl in Hsum. rewrite Hl.
    destruct (String.eqb_spec k h0) as [<-|Hne].
    + try rewrite String.eqb_refl in Hsum.
      rewrite (Hfree Hfr) in Hsum. split; [lia|].
      rewrite lock_held_cons_self. discriminate.
    + try rewrite (proj2 (String.eqb_neq _ _) Hne) in Hsum.
      rewrite lock_held_cons_other by congruence. split; [lia|].
      intro Hf. specialize (Hfree Hf). lia.
  - rewrite Hph in Hsum. simpl in Hsum. rewrite Hl.
    destruct (String.eqb_spec k h0) as [<-|Hne].
    + try rewrite String.eqb_refl in Hsum. split; [lia|]. intros _. lia.
    + try rewrite (proj2 (String.eqb_neq _ _) Hne) in Hsum.
      rewrite lock_held_unlock_other by congruence. split; [lia|].
      intro Hf. specialize (Hfree Hf). lia.
Qed.

Lemma run_lock_inv (env : Env) (sched : list nat) (c : Config) :
  lock_inv env c -> lock_inv env (run env sched c).
Proof.
  unfold run. revert c. induction sched as [|i r IH]; intros c Hc; simpl; [exact Hc|].
  apply IH. destruct (step_at env i c) as [c'|] eqn:Hs; [|exact Hc].
  apply (step_at_lock_inv env i c c' Hc Hs).
Qed.

Lemma init_lock_inv (env : Env) (store : list ArtifactEntry) (reqs : list GenerationRequest) :
  lock_inv env (init store reqs).
Proof.
  intro h. unfold holders, init. simpl.
  assert (H0 : list_sum (map (holder_ind env h) (map (fun r => mkThread r Start) reqs)) = 0).
  { induction reqs as [|r rs IH]; simpl; [reflexivity|]. rewrite IH. reflexivity. }
  rewrite H0. split; [lia|reflexivity].
Qed.

Lemma in_flight_le_holders (env : Env) (h : string) (ts : list Thread) :
  in_flight env h ts <= holders env h ts.
Proof.
  unfold in_flight, holders. induction ts as [|t r IH]; simpl; [lia|].
  unfold holder_ind at 1.
  destruct (t_phase t); simpl; try lia.
  destruct (String.eqb (key_hash env (t_req t)) h); simpl; lia.
Qed.

End LockFacts.

Module SingleFlight.
Import Cache LockFacts.

(** The lock's guarantee: whatever the interleaving of any number of
    requests started on any store, at no point is more than one Generator
    call in flight for the same cache hash. *)
Theorem at_most_one_generation_in_flight :
  forall (env : Env) (store : list ArtifactEntry) (reqs : list GenerationRequest)
         (sched : list nat) (h : string),
    in_flight env h (snd (run env sched (init store reqs))) <= 1.
Proof.
  intros env store reqs sched h.
  pose proof (run_lock_inv env sched _ (init_lock_inv env store reqs) h) as [Hle _].
  pose proof (in_flight_le_holders env h (snd (run env sched (init store reqs)))).
  lia.
Qed.

Definition race_request : GenerationRequest := KeyBuilderFacts.example_request ["Apply"].

(** Request 0 misses the exact and similar checks, request 1 then runs to
    completion, and request 0 takes the released lock. *)
Definition race_schedule : list nat :=
  [0; 0; 0; 1; 1; 1; 1; 1; 1; 1; 0; 0; 0; 0; 0].

Definition race_final : Config :=
  run KeyBuilderFacts.example_env race_schedule (init [] [race_request; race_request]).

Definition answered (t : Thread) : bool :=
  match t_phase t with Done (inr _) => true | _ => false end.

(** C1 is broken by the orchestrator: after a successful [ACQUIRE_LOCK] it
    goes to [GENERATE] without the exact re-check its waiting path makes, so
    two concurrent identical requests on an empty store both answer, yet the
    Generator is called twice for their hash. *)
Lemma two_requests_two_generations :
  forallb answered (snd race_final) = true
  /\ length (snd race_final) = 2
  /\ getByHash (key_hash KeyBuilderFacts.example_env race_request) [] = None
  /\ gen_count (key_hash KeyBuilderFacts.example_env race_request) (fst race_final) = 2.
Proof. vm_compute. repeat split. Qed.

End SingleFlight.

(* ================================================================== *)
(** ** ArtifactStore frame condition *)

Module FrameFacts.
Import Cache.

(** [e'] is [e] with its usage count raised by some [k]. *)
Definition entry_frame (e e' : ArtifactEntry) : Prop :=
  exists k, e' = with_usage e (e_usageCount e + k).

(** Every entry of [old] survives in [new], changed at most in its usage
    count, and [new] only adds entries in front. *)
Definition store_frame (old new : list ArtifactEntry) : Prop :=
  exists added kept, new = added ++ kept /\ Forall2 entry_frame old kept.

Lemma entry_frame_refl (e : ArtifactEntry) : entry_frame e e.
Proof. exists 0. destruct e; unfold with_usage; simpl. rewrite Nat.add_0_r. reflexivity. Qed.

Lemma entry_frame_trans (a b c : ArtifactEntry) :
  entry_frame a b -> entry_frame b c -> entry_frame a c.
Proof.
  intros [k1 ->] [k2 ->]. exists (k1 + k2). unfold with_usage. simpl.
  rewrite Nat.add_assoc. reflexivity.
Qed.

Lemma Forall2_entry_frame_refl (l : list ArtifactEntry) : Forall2 entry_frame l l.
Proof. induction l; constructor; auto using entry_frame_refl. Qed.

Lemma Forall2_entry_frame_trans (a b c : list ArtifactEntry) :
  Forall2 entry_frame a b -> Forall2 entry_frame b c -> Forall2 entry_frame a c.
Proof.
  intros Hab. revert c. induction Hab as [|x y a' b' Hxy Hr IH]; intros c Hbc;
    inversion Hbc; subst; constructor; eauto using entry_frame_trans.
Qed.

Lemma store_frame_refl (l : list ArtifactEntry) : store_frame l l.
Proof. exists [], l. split; [reflexivity|apply Forall2_entry_frame_refl]. Qed.

Lemma store_frame_trans (a b c : list ArtifactEntry) :
  store_frame a b -> store_frame b c -> store_frame a c.
Proof.
  intros (ad1 & k1 & -> & F1) (ad2 & k2 & -> & F2).
  apply Forall2_app_inv_l in F2 as (l1 & l2 & Fa & Fk & ->).
  exists (ad2 ++ l1), l2. split; [rewrite app_assoc; reflexivity|].
  eapply Forall2_entry_frame_trans; eassumption.
Qed.

Lemma incrementUsage_frame (id : nat) (s : list ArtifactEntry) :
  store_frame s (incrementUsage id s).
Proof.
  exists [], (incrementUsage id s). split; [reflexivity|].
  unfold incrementUsage. induction s as [|e r IH]; simpl; constructor; [|exact IH].
  destruct (Nat.eqb (e_id e) id).
  - exists 1. rewrite Nat.add_1_r. reflexivity.
  - apply entry_frame_refl.
Qed.

Lemma insert_frame (e : ArtifactEntry) (s s' : list ArtifactEntry) :
  insert e s = Some s' -> store_frame s s'.
Proof.
  unfold insert. destruct (getByHash (e_hash e) s); intro H; [discriminate|].
  injection H as <-. exists [e], s. split; [reflexivity|apply Forall2_entry_frame_refl].
Qed.

Lemma step_phase_frame (env : Env) (w w' : World) (r : GenerationRequest) (ph ph' : Phase) :
  step_phase env w r ph = Some (w', ph') -> store_frame (w_store w) (w_store w').
Proof.
  unfold step_phase. destruct (build env r) as [sig h].
  intro H. destruct ph; LockFacts.destruct_matches_in H;
    inversion H; subst; clear H; simpl;
    first [ apply store_frame_refl | apply incrementUsage_frame
          | eapply insert_frame; eassumption ].
Qed.

Lemma step_at_frame (env : Env) (i : nat) (c c' : Config) :
  step_at env i c = Some c' -> store_frame (w_store (fst c)) (w_store (fst c')).
Proof.
  destruct c as [w ts]. unfold step_at, step_thread. simpl.
  destruct (nth_error ts i) as [t|]; [|discriminate].
  destruct (step_phase env w (t_req t) (t_phase t)) as [[w' ph']|] eqn:Hst; [|discriminate].
  intro H. injection H as <-. simpl. eapply step_phase_frame; eassumption.
Qed.

(** C8: whatever the requests and their interleaving, every entry in the
    store before is still in it afterwards with all fields unchanged except
    a usage count that has only grown, and the only other change is new
    entries. *)
Theorem entries_frame_preserved :
  forall (env : Env) (sched : list nat) (c : Config),
    store_frame (w_store (fst c)) (w_store (fst (run env sched c))).
Proof.
  intros env sched. unfold run. induction sched as [|i r IH]; intro c; simpl.
  - apply store_frame_refl.
  - destruct (step_at env i c) as [c'|] eqn:Hs.
    + eapply store_frame_trans; [eapply step_at_frame; exact Hs|apply IH].
    + apply IH.
Qed.

End FrameFacts.

(* ================================================================== *)
(** ** [resolveOrGenerate] on its own *)

Module ResolveFacts.
Import Cache.

Lemma build_eq (env : Env) (r : GenerationRequest) :
  build env r = (signature r, key_hash env r).
Proof. reflexivity. Qed.

Ltac step_unfold :=
  unfold step_phase; rewrite build_eq; cbv beta iota.

Lemma step_start (env : Env) (w : World) (r : GenerationRequest) :
  step_phase env w r Start = Some (w, CheckExact).
Proof. step_unfold. reflexivity. Qed.

Lemma step_exact_miss (env : Env) (w : World) (r : GenerationRequest) :
  getByHash (key_hash env r) (w_store w) = None ->
  step_phase env w r CheckExact = Some (w, CheckSimilar).
Proof. intro H. step_unfold. rewrite H. reflexivity. Qed.

Lemma step_exact_hit (env : Env) (w : World) (r : GenerationRequest) (e : ArtifactEntry) :
  getByHash (key_hash env r) (w_store w) = Some e ->
  step_phase env w r CheckExact = Some (reuse w e Exact 1).
Proof. intro H. step_unfold. rewrite H. reflexivity. Qed.

Lemma step_similar_miss (env : Env) (w : World) (r : GenerationRequest) :
  best_match (score env) (signature r) (fetch env (w_store w) (rq_scope r)) = None ->
  step_phase env w r CheckSimilar = Some (w, AcquireLock).
Proof. intro H. step_unfold. rewrite H. reflexivity. Qed.

Lemma step_acquire (env : Env) (w : World) (r : GenerationRequest) :
  lock_held (key_hash env r) (w_locks w) = false ->
  step_phase env w r AcquireLock
  = Some ({| w_store := w_store w; w_locks := key_hash env r :: w_locks w;
             w_clock := w_clock w; w_next_id := w_next_id w;
             w_gen_calls := key_hash env r :: w_gen_calls w |}, Generating).
Proof. intro H. step_unfold. rewrite H. reflexivity. Qed.

Lemma step_generate_fail (env : Env) (w : World) (r : GenerationRequest) :
  generate env r = None ->
  step_phase env w r Generating = Some (w, Release (inl GenerationError)).
Proof. intro H. step_unfold. rewrite H. reflexivity. Qed.

Lemma step_generate_ok (env : Env) (w : World) (r : GenerationRequest) (p : string) :
  generate env r = Some p ->
  step_phase env w r Generating = Some (w, Persist p).
Proof. intro H. step_unfold. rewrite H. reflexivity. Qed.

(** The entry [Persist p] writes. *)
Definition new_entry (env : Env) (w : World) (r : GenerationRequest) (p : string)
  : ArtifactEntry :=
  {| e_id := w_next_id w; e_scope := rq_scope r; e_signature := signature r;
     e_hash := key_hash env r; e_payload := p; e_createdAt := w_clock w;
     e_usageCount := 0; e_embedding := option_map (fun f => f p) (embed env) |}.

Lemma step_persist_fresh (env : Env) (w : World) (r : GenerationRequest) (p : string) :
  getByHash (key_hash env r) (w_store w) = None ->
  step_phase env w r (Persist p)
  = Some ({| w_store := new_entry env w r p :: w_store w; w_locks := w_locks w;
             w_clock := S (w_clock w); w_next_id := S (w_next_id w);
             w_gen_calls := w_gen_calls w |},
          Release (inr {| resp_id := w_next_id w; resp_payload := p;
                          resp_cached := false; resp_matchType := Generated;
                          resp_similarity := 0 |})).
Proof. intro H. step_unfold. unfold insert. simpl. rewrite H. reflexivity. Qed.

Lemma step_release (env : Env) (w : World) (r : GenerationRequest) (o : Outcome) :
  step_phase env w r (Release o) = Some (set_locks w (unlock (key_hash env r) (w_locks w)), Done o).
Proof. step_unfold. reflexivity. Qed.

Lemma drive_step (env : Env) (f : nat) (w w' : World) (r : GenerationRequest) (ph ph' : Phase) :
  step_phase env w r ph = Some (w', ph') ->
  (forall o, ph <> Done o) ->
  drive env (S f) w (mkThread r ph) = drive env f w' (mkThread r ph').
Proof.
  intros Hs Hnd. simpl. unfold step_thread. simpl. rewrite Hs.
  destruct ph; try reflexivity. exfalso. eapply Hnd. reflexivity.
Qed.

Lemma unlock_not_held (h : string) (l : list string) :
  lock_held h l = false -> unlock h l = l.
Proof.
  unfold lock_held, unlock. induction l as [|x r IH]; simpl; [reflexivity|].
  intro H. apply orb_false_iff in H as [Hx Hr].
  destruct (String.eqb_spec x h) as [->|]; [rewrite String.eqb_refl in Hx; discriminate|].
  simpl. rewrite IH by exact Hr. reflexivity.
Qed.

Lemma unlock_acquired (h : string) (l : list string) :
  lock_held h l = false -> unlock h (h :: l) = l.
Proof.
  intro H. unfold unlock at 1. simpl. rewrite String.eqb_refl. simpl.
  apply unlock_not_held, H.
Qed.

(** [resolveOrGenerate] on a request with no exact or similar match and a
    free lock: one Generator call, then either the new entry or the
    generation error. *)
Lemma resolve_fresh (env : Env) (r : GenerationRequest) (w : World) :
  getByHash (key_hash env r) (w_store w) = None ->
  best_match (score env) (signature r) (fetch env (w_store w) (rq_scope r)) = None ->
  lock_held (key_hash env r) (w_locks w) = false ->
  resolveOrGenerate env r w =
  match generate env r with
  | None =>
      Some ({| w_store := w_store w; w_locks := w_locks w; w_clock := w_clock w;
               w_next_id := w_next_id w; w_gen_calls := key_hash env r :: w_gen_calls w |},
            inl GenerationError)
  | Some p =>
      Some ({| w_store := new_entry env w r p :: w_store w; w_locks := w_locks w;
               w_clock := S (w_clock w); w_next_id := S (w_next_id w);
               w_gen_calls := key_hash env r :: w_gen_calls w |},
            inr {| resp_id := w_next_id w; resp_payload := p; resp_cached := false;
                   resp_matchType := Generated; resp_similarity := 0 |})
  end.
Proof.
  intros Hex Hsim Hlock. unfold resolveOrGenerate.
  rewrite (drive_step _ _ _ _ _ _ _ (step_start env w r) ltac:(discriminate)).
  rewrite (drive_step _ _ _ _ _ _ _ (step_exact_miss env w r Hex) ltac:(discriminate)).
  rewrite (drive_step _ _ _ _ _ _ _ (step_similar_miss env w r Hsim) ltac:(discriminate)).
  rewrite (drive_step _ _ _ _ _ _ _ (step_acquire env w r Hlock) ltac:(discriminate)).
  destruct (generate env r) as [p|] eqn:Hg.
  - rewrite (drive_step _ _ _ _ _ _ _ (step_generate_ok _ _ r p Hg) ltac:(discriminate)).
    erewrite (drive_step _ _ _ _ _ _ _ (step_persist_fresh _ _ r p _) ltac:(discriminate)).
    rewrite (drive_step _ _ _ _ _ _ _ (step_release _ _ r _) ltac:(discriminate)).
    cbn [drive t_phase]. unfold set_locks.
    cbn [w_locks w_store w_clock w_next_id w_gen_calls].
    rewrite unlock_acquired by exact Hlock. reflexivity.
    Unshelve. exact Hex.
  - rewrite (drive_step _ _ _ _ _ _ _ (step_generate_fail _ _ r Hg) ltac:(discriminate)).
    rewrite (drive_step _ _ _ _ _ _ _ (step_release _ _ r _) ltac:(discriminate)).
    cbn [drive t_phase]. unfold set_locks.
    cbn [w_locks w_store w_clock w_next_id w_gen_calls].
    rewrite unlock_acquired by exact Hlock. reflexivity.
Qed.

End ResolveFacts.

Module OrchestratorFacts.
Import Cache ResolveFacts.

(** The same collaborators with another Generator, for a later retry. *)
Definition with_generator (env : Env) (g : GenerationRequest -> option string) : Env :=
  mkEnv (digest env) (score env) g (embed env) (vector_candidates env) (candidate_limit env).

Lemma gen_count_cons (h : string) (w : World) (st : list ArtifactEntry) (l : list string)
    (c n : nat) :
  gen_count h {| w_store := st; w_locks := l; w_clock := c; w_next_id := n;
                 w_gen_calls := h :: w_gen_calls w |} = S (gen_count h w).
Proof. unfold gen_count. simpl. destruct (string_dec h h); [reflexivity|contradiction]. Qed.

(** C5: when the Generator fails on a request that reached it, the answer
    is the generation error (a kind distinct from "not found" and "quota
    exceeded"), the lock is released, the store is left exactly as it was,
    and a retry reaches the Generator again, storing its result when it
    succeeds. *)
Theorem generation_failure_atomic :
  forall (env : Env) (r : GenerationRequest) (w : World),
    getByHash (key_hash env r) (w_store w) = None ->
    best_match (score env) (signature r) (fetch env (w_store w) (rq_scope r)) = None ->
    lock_held (key_hash env r) (w_locks w) = false ->
    generate env r = None ->
    exists w', resolveOrGenerate env r w = Some (w', inl GenerationError)
    /\ GenerationError <> NotFound /\ GenerationError <> QuotaExceeded
    /\ w_store w' = w_store w /\ w_locks w' = w_locks w
    /\ lock_held (key_hash env r) (w_locks w') = false
    /\ gen_count (key_hash env r) w' = S (gen_count (key_hash env r) w)
    /\ forall g, exists w'' o,
         resolveOrGenerate (with_generator env g) r w' = Some (w'', o)
         /\ gen_count (key_hash env r) w'' = S (gen_count (key_hash env r) w')
         /\ forall p, g r = Some p ->
              o = inr {| resp_id := w_next_id w'; resp_payload := p; resp_cached := false;
                         resp_matchType := Generated; resp_similarity := 0 |}
              /\ In (new_entry env w' r p) (w_store w'').
Proof.
  intros env r w Hex Hsim Hlock Hfail.
  rewrite (resolve_fresh env r w Hex Hsim Hlock), Hfail.
  eexists. split; [reflexivity|].
  split; [discriminate|]. split; [discriminate|].
  split; [reflexivity|]. split; [reflexivity|]. split; [exact Hlock|].
  split; [apply gen_count_cons|].
  intro g. set (w' := {| w_store := w_store w; w_locks := w_locks w; w_clock := w_clock w;
                         w_next_id := w_next_id w;
                         w_gen_calls := key_hash env r :: w_gen_calls w |}).
  pose proof (resolve_fresh (with_generator env g) r w' Hex Hsim Hlock) as Hr.
  rewrite Hr. cbn [generate with_generator].
  destruct (g r) as [p|] eqn:Hg.
  - do 2 eexists. split; [reflexivity|]. split; [apply gen_count_cons|].
    intros p' Hp. injection Hp as <-. split; [reflexivity|]. left. reflexivity.
  - do 2 eexists. split; [reflexivity|]. split; [apply gen_count_cons|].
    intros p' Hp. discriminate.
Qed.

Lemma generation_failure_atomic_witness :
  let env := with_generator KeyBuilderFacts.example_env (fun _ => None) in
  let r := KeyBuilderFacts.example_request ["Apply"] in
  let w := fst (init [] []) in
  getByHash (key_hash env r) (w_store w) = None /\
  best_match (score env) (signature r) (fetch env (w_store w) (rq_scope r)) = None /\
  lock_held (key_hash env r) (w_locks w) = false /\
  generate env r = None /\
  exists w', resolveOrGenerate env r w = Some (w', inl GenerationError)
    /\ GenerationError <> NotFound /\ GenerationError <> QuotaExceeded
    /\ w_store w' = w_store w /\ w_locks w' = w_locks w
    /\ lock_held (key_hash env r) (w_locks w') = false
    /\ gen_count (key_hash env r) w' = S (gen_count (key_hash env r) w)
    /\ forall g, exists w'' o,
         resolveOrGenerate (with_generator env g) r w' = Some (w'', o)
         /\ gen_count (key_hash env r) w'' = S (gen_count (key_hash env r) w')
         /\ forall p, g r = Some p ->
              o = inr {| resp_id := w_next_id w'; resp_payload := p; resp_cached := false;
                         resp_matchType := Generated; resp_similarity := 0 |}
              /\ In (new_entry env w' r p) (w_store w'').
Proof.
  intros env r w.
  assert (H1 : getByHash (key_hash env r) (w_store w) = None) by reflexivity.
  assert (H2 : best_match (score env) (signature r) (fetch env (w_store w) (rq_scope r)) = None)
    by reflexivity.
  assert (H3 : lock_held (key_hash env r) (w_locks w) = false) by reflexivity.
  assert (H4 : generate env r = None) by reflexivity.
  split; [exact H1|]. split; [exact H2|]. split; [exact H3|]. split; [exact H4|].
  exact (generation_failure_atomic env r w H1 H2 H3 H4).
Defined.

(** C6: a request with no exact or similar match, run twice in a row with a
    succeeding Generator, is answered [Generated] and then [Exact] with
    similarity 1, with the same entry and the same payload both times. *)
Theorem exact_match_idempotent :
  forall (env : Env) (r : GenerationRequest) (w : World) (p : string),
    getByHash (key_hash env r) (w_store w) = None ->
    best_match (score env) (signature r) (fetch env (w_store w) (rq_scope r)) = None ->
    lock_held (key_hash env r) (w_locks w) = false ->
    generate env r = Some p ->
    exists w1 w2 r1 r2,
      resolveOrGenerate env r w = Some (w1, inr r1)
      /\ resolveOrGenerate env r w1 = Some (w2, inr r2)
      /\ resp_matchType r1 = Generated /\ resp_matchType r2 = Exact
      /\ resp_similarity r2 = 1%Q
      /\ resp_payload r1 = p /\ resp_payload r2 = p
      /\ resp_id r1 = resp_id r2.
Proof.
  intros env r w p Hex Hsim Hlock Hg.
  rewrite (resolve_fresh env r w Hex Hsim Hlock), Hg.
  set (w1 := {| w_store := new_entry env w r p :: w_store w; w_locks := w_locks w;
                w_clock := S (w_clock w); w_next_id := S (w_next_id w);
                w_gen_calls := key_hash env r :: w_gen_calls w |}).
  assert (Hhit : getByHash (key_hash env r) (w_store w1) = Some (new_entry env w r p)).
  { unfold getByHash. simpl. rewrite String.eqb_refl. reflexivity. }
  do 4 eexists. split; [reflexivity|]. split.
  - unfold resolveOrGenerate.
    rewrite (drive_step _ _ _ _ _ _ _ (step_start env w1 r) ltac:(discriminate)).
    rewrite (drive_step _ _ _ _ _ _ _ (step_exact_hit env w1 r _ Hhit) ltac:(discriminate)).
    reflexivity.
  - repeat split.
Qed.

Lemma exact_match_idempotent_witness :
  let env := KeyBuilderFacts.example_env in
  let r := KeyBuilderFacts.example_request ["Apply"] in
  let w := fst (init [] []) in
  getByHash (key_hash env r) (w_store w) = None /\
  best_match (score env) (signature r) (fetch env (w_store w) (rq_scope r)) = None /\
  lock_held (key_hash env r) (w_locks w) = false /\
  generate env r = Some "questions" /\
  exists w1 w2 r1 r2,
    resolveOrGenerate env r w = Some (w1, inr r1)
    /\ resolveOrGenerate env r w1 = Some (w2, inr r2)
    /\ resp_matchType r1 = Generated /\ resp_matchType r2 = Exact
    /\ resp_similarity r2 = 1%Q
    /\ resp_payload r1 = "questions" /\ resp_payload r2 = "questions"
    /\ resp_id r1 = resp_id r2.
Proof.
  intros env r w.
  assert (H1 : getByHash (key_hash env r) (w_store w) = None) by reflexivity.
  assert (H2 : best_match (score env) (signature r) (fetch env (w_store w) (rq_scope r)) = None)
    by reflexivity.
  assert (H3 : lock_held (key_hash env r) (w_locks w) = false) by reflexivity.
  assert (H4 : generate env r = Some "questions") by reflexivity.
  split; [exact H1|]. split; [exact H2|]. split; [exact H3|]. split; [exact H4|].
  exact (exact_match_idempotent env r w "questions" H1 H2 H3 H4).
Defined.

End OrchestratorFacts.

(* ================================================================== *)
(** ** Scope isolation *)

Module ScopeFacts.
Import Cache.

Fixpoint no_bar (s : string) : bool :=
  match s with
  | EmptyString => true
  | String c r => negb (Ascii.eqb c "|"%char) && no_bar r
  end.

Lemma string_length_append (a b : string) :
  String.length (a ++ b) = String.length a + String.length b.
Proof. induction a as [|c r IH]; simpl; [reflexivity|]. rewrite IH. reflexivity. Qed.

Lemma append_cancel_r (a b x : string) : (a ++ x = b ++ x)%string -> a = b.
Proof.
  revert b. induction a as [|c r IH]; intros b H; destruct b as [|d b']; simpl in H.
  - reflexivity.
  - exfalso. apply (f_equal String.length) in H. simpl in H.
    rewrite string_length_append in H. lia.
  - exfalso. apply (f_equal String.length) in H. simpl in H.
    rewrite string_length_append in H. lia.
  - injection H as -> H. f_equal. apply IH, H.
Qed.

Lemma bar_prefix_eq (a b x y : string) :
  no_bar a = true -> no_bar b = true ->
  (a ++ "|" ++ x = b ++ "|" ++ y)%string -> a = b.
Proof.
  revert b. induction a as [|c r IH]; intros b Ha Hb H; destruct b as [|d b']; simpl in *.
  - reflexivity.
  - injection H as <- _. discriminate.
  - injection H as -> _. discriminate.
  - apply andb_true_iff in Ha as [_ Ha]. apply andb_true_iff in Hb as [_ Hb].
    injection H as -> H. f_equal. apply IH; assumption.
Qed.

Lemma in_firstn_in {A} (n : nat) (l : list A) (x : A) : In x (firstn n l) -> In x l.
Proof.
  revert n. induction l as [|y r IH]; intros n H; destruct n; simpl in *; try contradiction.
  destruct H as [->|H]; [left; reflexivity|right; eapply IH; exact H].
Qed.

Lemma fetch_in_scope (env : Env) (store : list ArtifactEntry) (sc : string) (e : ArtifactEntry) :
  In e (fetch env store sc) -> e_scope e = sc.
Proof.
  unfold fetch, listByScope. destruct (vector_candidates env) as [vc|]; intro H.
  - apply filter_In in H as [_ H]. apply String.eqb_eq, H.
  - apply in_firstn_in, filter_In in H as [_ H]. apply String.eqb_eq, H.
Qed.

(** Scope of the lookups: CandidateRetriever only returns entries of the requested
    scope, so a similar match is always from the request's scope.  An exact
    match is looked up by hash alone: with a collision-free digest and an
    entry whose hash is the digest of its scope and signature, it is from the
    request's scope when its signature equals the request's, or when neither
    scope contains a [|]. *)
Theorem scope_isolation :
  forall (env : Env) (store : list ArtifactEntry) (r : GenerationRequest),
    (forall e, In e (fetch env store (rq_scope r)) -> e_scope e = rq_scope r)
    /\ (forall e s, best_match (score env) (signature r) (fetch env store (rq_scope r))
                    = Some (e, s) -> e_scope e = rq_scope r)
    /\ (forall e, (forall x y, digest env x = digest env y -> x = y) ->
          getByHash (key_hash env r) store = Some e ->
          e_hash e = digest env (e_scope e ++ "|" ++ e_signature e)%string ->
          e_signature e = signature r
          \/ (no_bar (e_scope e) = true /\ no_bar (rq_scope r) = true) ->
          e_scope e = rq_scope r).
Proof.
  intros env store r. split; [|split].
  - intro e. apply fetch_in_scope.
  - intros e s H. apply ScorerFacts.best_match_spec in H as [Hin _].
    apply (fetch_in_scope env store), Hin.
  - intros e Hinj Hget Hh Hcase.
    unfold getByHash in Hget. apply find_some in Hget as [_ Heq].
    apply String.eqb_eq in Heq. rewrite Hh in Heq.
    cbv beta zeta iota delta [key_hash build snd] in Heq. apply Hinj in Heq.
    destruct Hcase as [Hsig|[Ha Hb]].
    + rewrite Hsig in Heq. apply append_cancel_r in Heq. exact Heq.
    + eapply bar_prefix_eq; eassumption.
Qed.

Definition scoped_entry : ArtifactEntry :=
  let r := KeyBuilderFacts.example_request ["Apply"] in
  mkEntry 0 (rq_scope r) (signature r) (key_hash KeyBuilderFacts.example_env r)
          "questions" 0 0 None.

Lemma scope_isolation_witness :
  let env := KeyBuilderFacts.example_env in
  let r := KeyBuilderFacts.example_request ["Apply"] in
  (forall x y, digest env x = digest env y -> x = y) /\
  getByHash (key_hash env r) [scoped_entry] = Some scoped_entry /\
  e_hash scoped_entry = digest env (e_scope scoped_entry ++ "|" ++ e_signature scoped_entry)%string /\
  (e_signature scoped_entry = signature r
   \/ (no_bar (e_scope scoped_entry) = true /\ no_bar (rq_scope r) = true)) /\
  e_scope scoped_entry = rq_scope r.
Proof.
  intros env r.
  assert (H1 : forall x y, digest env x = digest env y -> x = y) by (intros x y H; exact H).
  assert (H2 : getByHash (key_hash env r) [scoped_entry] = Some scoped_entry) by reflexivity.
  assert (H3 : e_hash scoped_entry
               = digest env (e_scope scoped_entry ++ "|" ++ e_signature scoped_entry)%string)
    by reflexivity.
  assert (H4 : e_signature scoped_entry = signature r
               \/ (no_bar (e_scope scoped_entry) = true /\ no_bar (rq_scope r) = true))
    by (left; reflexivity).
  split; [exact H1|]. split; [exact H2|]. split; [exact H3|]. split; [exact H4|].
  exact (proj2 (proj2 (scope_isolation env [scoped_entry] r)) scoped_entry H1 H2 H3 H4).
Defined.

(** Two requests of different scopes whose hash keys
    [scope + "|" + signature] are the same string, since [|] is escaped
    neither in the scope nor in the type labels. *)
Definition collide_request (sc : string) (types : list string) : GenerationRequest :=
  mkRequest sc 5 types ["Apply"] (mkDistribution (3 # 10) (5 # 10) (2 # 10)).

Definition other_scope_request : GenerationRequest :=
  collide_request "a|a|count:5|types:" ["t"].

Definition colliding_request : GenerationRequest :=
  collide_request "a" ["|a|a|count:5|types:|count:5|types:t"].

Definition after_other : World :=
  match resolveOrGenerate KeyBuilderFacts.example_env other_scope_request (fst (init [] [])) with
  | Some (w, _) => w
  | None => fst (init [] [])
  end.

(** C4 is broken by the exact-match step: once the request of scope
    [a|a|count:5|types:] has been generated, the request of scope [a], whose
    signature differs, is silently answered with that entry as an exact
    match, for an injective digest; the two keys agree under every digest. *)
Lemma cross_scope_exact_match :
  (forall env, key_hash env colliding_request = key_hash env other_scope_request)
  /\ exists e, getByHash (key_hash KeyBuilderFacts.example_env colliding_request)
                         (w_store after_other) = Some e
     /\ e_scope e <> rq_scope colliding_request
     /\ option_map snd (resolveOrGenerate KeyBuilderFacts.example_env colliding_request after_other)
        = Some (inr {| resp_id := e_id e; resp_payload := e_payload e; resp_cached := true;
                       resp_matchType := Exact; resp_similarity := 1 |}).
Proof.
  split; [intro env; reflexivity|].
  eexists. split; [vm_compute; reflexivity|].
  split; [vm_compute; discriminate|]. vm_compute. reflexivity.
Qed.

End ScopeFacts.

(* ================================================================== *)
(** ** Properties of the rest of the client *)

Module JsObjectFacts.
Import JsObject.

Lemma find_none_of_no_key (k : string) (o : obj) :
  has_key k o = false -> find (fun p => String.eqb (fst p) k) o = None.
Proof.
  induction o as [|[a1 a2] o IH]; simpl; intros H; [reflexivity|].
  destruct (String.eqb a1 k); [discriminate|]. apply IH, H.
Qed.

Lemma lookup_app (k : string) (o1 o2 : obj) :
  lookup k (o1 ++ o2) = match lookup k o1 with Some v => Some v | None => lookup k o2 end.
Proof.
  unfold lookup. induction o1 as [|[a1 a2] o1 IH]; simpl; [reflexivity|].
  destruct (String.eqb a1 k); [reflexivity|exact IH].
Qed.

Lemma lookup_map_other (k k' v : string) (o : obj) :
  k' <> k ->
  lookup k' (map (fun p => if String.eqb (fst p) k then (k, v) else p) o) = lookup k' o.
Proof.
  intros Hne. unfold lookup.
  induction o as [|[a1 a2] o IH]; simpl; [reflexivity|].
  destruct (String.eqb_spec a1 k) as [->|_]; simpl.
  - destruct (String.eqb_spec k k') as [E|_]; [congruence|exact IH].
  - destruct (String.eqb a1 k'); [reflexivity|exact IH].
Qed.

Lemma lookup_map_same (k v : string) (o : obj) :
  has_key k o = true ->
  lookup k (map (fun p => if String.eqb (fst p) k then (k, v) else p) o) = Some v.
Proof.
  unfold lookup, has_key.
  induction o as [|[a1 a2] o IH]; simpl; intros H; [discriminate|].
  destruct (String.eqb a1 k) eqn:E; simpl.
  - rewrite String.eqb_refl. reflexivity.
  - rewrite E. apply IH, H.
Qed.

Lemma lookup_assign (k k' v : string) (o : obj) :
  lookup k' (assign k v o) = if String.eqb k' k then Some v else lookup k' o.
Proof.
  unfold assign. destruct (String.eqb_spec k' k) as [->|Hne].
  - destruct (has_key k o) eqn:Hk.
    + apply lookup_map_same, Hk.
    + rewrite lookup_app. unfold lookup at 1.
      rewrite (find_none_of_no_key _ _ Hk). simpl.
      unfold lookup. simpl. rewrite String.eqb_refl. reflexivity.
  - destruct (has_key k o).
    + apply lookup_map_other, Hne.
    + rewrite lookup_app. destruct (lookup k' o) eqn:E; [reflexivity|].
      unfold lookup. simpl.
      destruct (String.eqb_spec k k') as [E'|_]; [congruence|reflexivity].
Qed.

Lemma lookup_delete (k k' : string) (o : obj) :
  lookup k' (delete k o) = if String.eqb k' k then None else lookup k' o.
Proof.
  unfold lookup, delete.
  induction o as [|[a1 a2] o IH]; simpl.
  - destruct (String.eqb k' k); reflexivity.
  - destruct (String.eqb_spec a1 k) as [->|Hne]; simpl.
    + rewrite IH. destruct (String.eqb_spec k' k) as [->|Hne'].
      * reflexivity.
      * destruct (String.eqb_spec k k') as [E|_]; [congruence|reflexivity].
    + destruct (String.eqb_spec a1 k') as [->|Hne'].
      * destruct (String.eqb_spec k' k) as [E|_]; [congruence|reflexivity].
      * exact IH.
Qed.

End JsObjectFacts.

Module ApiClientFacts.
Import JsObject JsObjectFacts ApiClient.

(** X1: [setAuthToken(t)] with a non-empty token makes every later request
    carry [Authorization: Bearer t], whatever the header held before, and
    leaves every other default header as it was. *)
Theorem setAuthToken_bearer (t : string) (h : obj) :
  t <> "" ->
  lookup "Authorization" (setAuthToken (Some t) h) = Some ("Bearer " ++ t)%string
  /\ forall k, k <> "Authorization" -> lookup k (setAuthToken (Some t) h) = lookup k h.
Proof.
  intros Ht. unfold setAuthToken.
  destruct (String.eqb_spec t "") as [E|_]; [contradiction|].
  split.
  - rewrite lookup_assign, String.eqb_refl. reflexivity.
  - intros k Hk. rewrite lookup_assign.
    destruct (String.eqb_spec k "Authorization"); [contradiction|reflexivity].
Qed.

Lemma setAuthToken_bearer_witness :
  lookup "Authorization"
    (setAuthToken (Some "tok") [("Authorization", "Bearer old"); ("Accept", "json")])
    = Some "Bearer tok"
  /\ lookup "Accept"
       (setAuthToken (Some "tok") [("Authorization", "Bearer old"); ("Accept", "json")])
     = Some "json".
Proof.
  destruct (setAuthToken_bearer "tok" [("Authorization", "Bearer old"); ("Accept", "json")])
    as [H1 H2]; [discriminate|].
  split; [exact H1|]. apply H2. discriminate.
Defined.

(** X2: [setAuthToken()] and [setAuthToken("")] both take the
    [Authorization] header away (an empty token is falsy), so no request
    carries a stale or empty bearer, and no other default header changes. *)
Theorem setAuthToken_clears (h : obj) :
  forall token, token = None \/ token = Some "" ->
  lookup "Authorization" (setAuthToken token h) = None
  /\ forall k, k <> "Authorization" -> lookup k (setAuthToken token h) = lookup k h.
Proof.
  intros token Htok.
  assert (setAuthToken token h = delete "Authorization" h) as ->.
  { destruct Htok as [->| ->]; reflexivity. }
  split.
  - rewrite lookup_delete, String.eqb_refl. reflexivity.
  - intros k Hk. rewrite lookup_delete.
    destruct (String.eqb_spec k "Authorization"); [contradiction|reflexivity].
Qed.

Lemma setAuthToken_clears_witness :
  lookup "Authorization" (setAuthToken (Some "") [("Authorization", "Bearer old")]) = None
  /\ forall k, k <> "Authorization" ->
       lookup k (setAuthToken (Some "") [("Authorization", "Bearer old")])
       = lookup k [("Authorization", "Bearer old")].
Proof.
  apply (setAuthToken_clears [("Authorization", "Bearer old")] (Some "")).
  right. reflexivity.
Defined.

Lemma hex_val_digit (k : nat) : k < 16 -> hex_val (hex_digit k) = Some k.
Proof.
  intros Hk.
  do 16 (destruct k as [|k]; [vm_compute; reflexivity|]). lia.
Qed.

Lemma hex_digit_char (k : nat) (c : ascii) :
  k < 16 -> c = hex_digit k ->
  c <> "/"%char /\ c <> "?"%char /\ c <> "#"%char /\ c <> "%"%char.
Proof.
  intros Hk ->.
  do 16 (destruct k as [|k]; [vm_compute; repeat split; discriminate|]). lia.
Qed.

Lemma encode_chars (s : string) (c : ascii) :
  In c (list_ascii_of_string (encodeURIComponent s)) ->
  uri_unreserved c = true \/ c = "%"%char \/ exists k, k < 16 /\ c = hex_digit k.
Proof.
  induction s as [|c0 r IH]; simpl; [intros []|].
  pose proof (nat_ascii_bounded c0) as Hb.
  destruct (uri_unreserved c0) eqn:Hu; simpl.
  - intros [<-|H]; [left; exact Hu|apply IH, H].
  - intros [<-|[<-|[<-|H]]].
    + right; left; reflexivity.
    + right; right. exists (nat_of_ascii c0 / 16). split; [|reflexivity].
      apply Nat.Div0.div_lt_upper_bound. lia.
    + right; right. exists (nat_of_ascii c0 mod 16). split; [|reflexivity].
      apply Nat.mod_upper_bound. lia.
    + apply IH, H.
Qed.

(** Percent-decoding undoes [encodeURIComponent]. *)
Lemma percent_decode_encode (s : string) :
  percent_decode (encodeURIComponent s) = Some s.
Proof.
  induction s as [|c r IH]; [reflexivity|]. cbn [encodeURIComponent].
  destruct (uri_unreserved c) eqn:Hu;
    cbn -[Nat.div Nat.modulo hex_val hex_digit nat_of_ascii ascii_of_nat].
  - destruct (Ascii.eqb_spec c "%") as [->|_]; [vm_compute in Hu; discriminate|].
    rewrite IH. reflexivity.
  - pose proof (nat_ascii_bounded c) as Hb.
    rewrite !hex_val_digit by
      (first [apply Nat.Div0.div_lt_upper_bound | apply Nat.mod_upper_bound]; lia).
    rewrite IH. cbn [option_map]. f_equal. f_equal.
    rewrite Nat.mul_comm, <- Nat.div_mod by discriminate.
    apply ascii_nat_embedding.
Qed.

End ApiClientFacts.

Module ErrorMessageFacts.
Import ApiClient.

Ltac split_matches :=
  repeat match goal with
  | |- context [match ?x with _ => _ end] => destruct x eqn:?
  end.

(** X5: [getErrorMessage] reads a message without serialising anything when
    the response body is absent or falsy, is itself a string, or carries a
    string [detail] (FastAPI's [HTTPException]): its result is then the same
    whatever [JSON.stringify] does. *)
Theorem getErrorMessage_no_stringify (js1 js2 : JSValue -> option string) (err : JSValue) :
  truthy (get (get err "response") "data") = false
  \/ (exists s, get (get err "response") "data" = JStr s)
  \/ (exists s, get (get (get err "response") "data") "detail" = JStr s) ->
  getErrorMessage js1 err = getErrorMessage js2 err.
Proof.
  unfold getErrorMessage.
  generalize (get (get err "response") "data") as d. intros d Hd.
  destruct (truthy d) eqn:Ht; simpl; [|reflexivity].
  destruct Hd as [Hf|[[s ->]|[s Hs]]]; [congruence|reflexivity|].
  rewrite Hs. destruct d; reflexivity.
Qed.

Lemma getErrorMessage_no_stringify_witness :
  getErrorMessage (fun _ => None)
    (JObj [("response", JObj [("data", JObj [("detail", JStr "Not found")])])])
  = getErrorMessage (fun _ => Some "{}")
    (JObj [("response", JObj [("data", JObj [("detail", JStr "Not found")])])]).
Proof.
  apply getErrorMessage_no_stringify.
  right; right. exists "Not found". reflexivity.
Defined.

(** X6: although declared to return a string, [getErrorMessage] returns a
    non-string only in one case: the error has no truthy response body and its
    [message] property is a truthy value that is not a string, which is then
    returned as it is. *)
Theorem getErrorMessage_string_result (js : JSValue -> option string) (err : JSValue) :
  (exists s, getErrorMessage js err = JStr s)
  \/ (truthy (get (get err "response") "data") = false
      /\ truthy (get err "message") = true
      /\ getErrorMessage js err = get err "message").
Proof.
  unfold getErrorMessage.
  generalize (get (get err "response") "data") as d. intros d.
  destruct (truthy d) eqn:Ht; simpl.
  - left. destruct d; try (eexists; reflexivity);
      split_matches; eexists; reflexivity.
  - destruct (truthy (get err "message")) eqn:Hm.
    + right. auto.
    + left. eexists. reflexivity.
Qed.

End ErrorMessageFacts.

Module AuthSessionFacts.
Import JsObject JsObjectFacts AuthSession.

Lemma map_assign_no_key (k v : string) (o : obj) :
  has_key k o = false ->
  map (fun p => if String.eqb (fst p) k then (k, v) else p) o = o.
Proof.
  unfold has_key. induction o as [|[a1 a2] o IH]; simpl; intros H; [reflexivity|].
  destruct (String.eqb a1 k); [discriminate|]. f_equal. apply IH, H.
Qed.

Lemma assign_has_key (k v : string) (o : obj) : has_key k (assign k v o) = true.
Proof.
  unfold assign. destruct (has_key k o) eqn:Hk; unfold has_key in *; apply existsb_exists.
  - apply existsb_exists in Hk. destruct Hk as [[a1 a2] [Hin Ha]].
    exists (k, v). split; [|apply String.eqb_refl].
    apply in_map_iff. exists (a1, a2). cbn [fst] in Ha |- *. rewrite Ha. auto.
  - exists (k, v). split; [apply in_or_app; right; left; reflexivity|apply String.eqb_refl].
Qed.

Lemma assign_idem (k v : string) (o : obj) : assign k v (assign k v o) = assign k v o.
Proof.
  assert (Hk := assign_has_key k v o).
  unfold assign at 1. rewrite Hk.
  unfold assign. destruct (has_key k o) eqn:Ho.
  - rewrite map_map. apply map_ext. intros [a1 a2]. simpl.
    destruct (String.eqb a1 k) eqn:E; simpl; [rewrite String.eqb_refl|rewrite E]; reflexivity.
  - rewrite map_app, (map_assign_no_key _ _ _ Ho). simpl. rewrite String.eqb_refl. reflexivity.
Qed.

Lemma delete_idem (k : string) (o : obj) : delete k (delete k o) = delete k o.
Proof.
  unfold delete. induction o as [|a o IH]; simpl; [reflexivity|].
  destruct (negb (String.eqb (fst a) k)) eqn:E; simpl; [rewrite E, IH|]; exact IH || reflexivity.
Qed.

Lemma setAuthToken_idem (t : option string) (h : obj) :
  ApiClient.setAuthToken t (ApiClient.setAuthToken t h) = ApiClient.setAuthToken t h.
Proof.
  unfold ApiClient.setAuthToken. destruct t as [t|].
  - destruct (String.eqb t "").
    + apply delete_idem.
    + apply assign_idem.
  - apply delete_idem.
Qed.

Lemma truthy_str_some (t : string) : t <> "" -> truthy_str (Some t) = Some t.
Proof. intros H. simpl. destruct (String.eqb_spec t ""); [contradiction|reflexivity]. Qed.

(** X7: after [logout] the client sends no [Authorization] header, holds no
    token or user, has removed both [localStorage] keys and kept every other
    one, and a page reload does not bring the session back. *)
Theorem logout_then_reload (parse_user : string -> option User) (s : Session) (h0 : obj) :
  lookup "Authorization" (headers (logout s)) = None
  /\ token (logout s) = None /\ user (logout s) = None
  /\ lookup "auth_token" (storage (logout s)) = None
  /\ lookup "auth_user" (storage (logout s)) = None
  /\ (forall k, k <> "auth_token" -> k <> "auth_user" ->
        lookup k (storage (logout s)) = lookup k (storage s))
  /\ reload parse_user h0 (logout s) = mkSession h0 (storage (logout s)) None None.
Proof.
  unfold logout; cbn [headers storage token user].
  assert (Ht : lookup "auth_token" (delete "auth_user" (delete "auth_token" (storage s))) = None).
  { rewrite !lookup_delete. reflexivity. }
  assert (Hu : lookup "auth_user" (delete "auth_user" (delete "auth_token" (storage s))) = None).
  { rewrite !lookup_delete. reflexivity. }
  repeat split; try reflexivity; try assumption.
  - unfold ApiClient.setAuthToken. rewrite lookup_delete. reflexivity.
  - intros k H1 H2. rewrite !lookup_delete.
    destruct (String.eqb_spec k "auth_user"); [contradiction|].
    destruct (String.eqb_spec k "auth_token"); [contradiction|reflexivity].
  - unfold reload, mount. cbn [storage]. rewrite Ht, Hu. reflexivity.
Qed.

(** X8: a successful [login] survives a page reload: the mount effect
    restores the same token and user from [localStorage] and sets the same
    [Authorization] header on the fresh axios instance, provided the access
    token is non-empty and [JSON.parse] reads back what [JSON.stringify]
    wrote for the user. *)
Theorem login_survives_reload (stringify_user : User -> string)
    (parse_user : string -> option User) (em t : string) (s : Session) (h0 : obj) :
  t <> "" ->
  stringify_user (mkUser em None) <> "" ->
  parse_user (stringify_user (mkUser em None)) = Some (mkUser em None) ->
  token (reload parse_user h0 (login_done stringify_user em t s))
    = token (login_done stringify_user em t s)
  /\ user (reload parse_user h0 (login_done stringify_user em t s))
    = user (login_done stringify_user em t s)
  /\ lookup "Authorization" (headers (reload parse_user h0 (login_done stringify_user em t s)))
    = lookup "Authorization" (headers (login_done stringify_user em t s))
  /\ lookup "Authorization" (headers (login_done stringify_user em t s))
    = Some ("Bearer " ++ t)%string.
Proof.
  intros Ht Hs Hp.
  assert (Hbearer : forall h, lookup "Authorization" (ApiClient.setAuthToken (Some t) h)
                              = Some ("Bearer " ++ t)%string).
  { intros h. unfold ApiClient.setAuthToken.
    destruct (String.eqb_spec t ""); [contradiction|].
    rewrite lookup_assign, String.eqb_refl. reflexivity. }
  unfold reload, mount, login_done. cbn [storage headers token user].
  rewrite !lookup_assign. cbn -[truthy_str ApiClient.setAuthToken].
  rewrite !truthy_str_some by assumption. rewrite Hp.
  cbn [headers token user]. rewrite !Hbearer. repeat split.
Qed.

Lemma login_survives_reload_witness :
  let st := fun u : User => ("u:" ++ email u)%string in
  let pa := fun s => Some (mkUser (substring 2 (String.length s - 2) s) None) in
  token (reload pa [] (login_done st "a@b.c" "tok" (mkSession [] [] None None)))
    = Some "tok"
  /\ user (reload pa [] (login_done st "a@b.c" "tok" (mkSession [] [] None None)))
    = Some (mkUser "a@b.c" None).
Proof.
  intros st pa.
  destruct (login_survives_reload st pa "a@b.c" "tok" (mkSession [] [] None None) [])
    as [H1 [H2 _]]; [discriminate|discriminate|reflexivity|].
  split; [exact H1|exact H2].
Defined.

(** X9: the mount effect is idempotent: running it twice, as React's
    development mode does with effects, leaves the same session, headers and
    storage as running it once. *)
Theorem mount_idempotent (parse_user : string -> option User) (s : Session) :
  mount parse_user (mount parse_user s) = mount parse_user s.
Proof.
  destruct s as [h st tk u]. unfold mount. cbn [storage headers token user].
  destruct (truthy_str (lookup "auth_token" st)) as [t|] eqn:Ht;
  destruct (truthy_str (lookup "auth_user" st)) as [x|] eqn:Hx;
  cbn [storage headers token user];
  rewrite ?Ht, ?Hx; cbn [storage headers token user];
  try (destruct (parse_user x) eqn:Hpx; cbn [storage headers token user]);
  rewrite ?Ht, ?Hx; cbn [storage headers token user]; rewrite ?Hpx;
  cbn [storage headers token user]; rewrite ?setAuthToken_idem; reflexivity.
Qed.

(** X10: an empty [access_token] is stored but never sent: [login] then
    keeps no [Authorization] header while React state holds the empty token,
    and after a reload the client shows the stored user although it holds no
    token and still sends no [Authorization] header. *)
Theorem login_empty_token (stringify_user : User -> string)
    (parse_user : string -> option User) (em : string) (s : Session) (h0 : obj) :
  stringify_user (mkUser em None) <> "" ->
  parse_user (stringify_user (mkUser em None)) = Some (mkUser em None) ->
  lookup "Authorization" h0 = None ->
  lookup "Authorization" (headers (login_done stringify_user em "" s)) = None
  /\ token (login_done stringify_user em "" s) = Some ""
  /\ token (reload parse_user h0 (login_done stringify_user em "" s)) = None
  /\ user (reload parse_user h0 (login_done stringify_user em "" s)) = Some (mkUser em None)
  /\ lookup "Authorization" (headers (reload parse_user h0 (login_done stringify_user em "" s)))
     = None.
Proof.
  intros Hs Hp Hh0.
  unfold reload, mount, login_done. cbn [headers token storage user].
  rewrite !lookup_assign. cbn -[truthy_str ApiClient.setAuthToken].
  rewrite truthy_str_some, Hp by assumption. cbn [headers token user].
  repeat split; try exact Hh0.
  unfold ApiClient.setAuthToken. simpl String.eqb. cbv iota.
  rewrite lookup_delete. reflexivity.
Qed.

Lemma login_empty_token_witness :
  let st := fun u : User => ("u:" ++ email u)%string in
  let pa := fun s => Some (mkUser (substring 2 (String.length s - 2) s) None) in
  user (reload pa [] (login_done st "a@b.c" "" (mkSession [] [] None None)))
    = Some (mkUser "a@b.c" None)
  /\ token (reload pa [] (login_done st "a@b.c" "" (mkSession [] [] None None))) = None.
Proof.
  intros st pa.
  destruct (login_empty_token st pa "a@b.c" (mkSession [] [] None None) [])
    as [_ [_ [H3 [H4 _]]]]; [discriminate|reflexivity|reflexivity|].
  split; [exact H4|exact H3].
Defined.

End AuthSessionFacts.

Module QuestionsAnswersFacts.
Import JsObject JsObjectFacts QuestionsAnswers.

Lemma to_uint_not_nil (n : nat) : Nat.to_uint n <> Decimal.Nil.
Proof.
  intros H. pose proof (DecimalNat.Unsigned.of_to n) as E.
  rewrite H in E. simpl in E. subst n. discriminate H.
Qed.

Lemma key_inj (i j : nat) : key i = key j -> i = j.
Proof.
  unfold key. intros H.
  apply (f_equal NilZero.uint_of_string) in H.
  rewrite !NilZero.usu in H by apply to_uint_not_nil.
  injection H as H. apply DecimalNat.Unsigned.to_uint_inj, H.
Qed.

Lemma count_answered_acc (a : obj) (qs : list Question) (i acc : nat) :
  count_answered a i qs acc = acc + count_answered a i qs 0.
Proof.
  revert i acc. induction qs as [|q r IH]; intros i acc; simpl; [lia|].
  rewrite (IH _ (acc + _)), (IH _ (if answered a i then 1 else 0)). lia.
Qed.

Lemma count_answered_le (a : obj) (qs : list Question) (i : nat) :
  count_answered a i qs 0 <= length qs.
Proof.
  revert i. induction qs as [|q r IH]; intros i; simpl; [lia|].
  rewrite count_answered_acc. specialize (IH (S i)).
  destruct (answered a i); lia.
Qed.

(** The count over the indices [i .. i + length qs - 1] for two answer
    records that agree everywhere except at [idx]. *)
Lemma count_answered_update (a a' : obj) (idx : nat) :
  (forall j, j <> idx -> answered a' j = answered a j) ->
  forall qs i,
    count_answered a' i qs 0
      + (if (i <=? idx) && (idx <? i + length qs) && answered a idx then 1 else 0)
    = count_answered a i qs 0
      + (if (i <=? idx) && (idx <? i + length qs) && answered a' idx then 1 else 0).
Proof.
  intros Hag qs. induction qs as [|q r IH]; intros i; simpl.
  - destruct (Nat.leb_spec i idx), (Nat.ltb_spec idx (i + 0)); simpl; lia.
  - rewrite (count_answered_acc a' r (S i)), (count_answered_acc a r (S i)).
    specialize (IH (S i)).
    destruct (Nat.eq_dec i idx) as [->|Hne].
    + replace ((S idx <=? idx)) with false in IH by (symmetry; apply Nat.leb_gt; lia).
      rewrite Nat.leb_refl. replace (idx <? idx + S (length r)) with true
        by (symmetry; apply Nat.ltb_lt; lia).
      simpl in IH |- *. destruct (answered a idx), (answered a' idx); simpl; lia.
    + rewrite (Hag i Hne).
      replace ((i <=? idx) && (idx <? i + S (length r)))
        with ((S i <=? idx) && (idx <? S i + length r)).
      * destruct ((S i <=? idx) && (idx <? S i + length r)); simpl in *;
          destruct (answered a i), (answered a idx), (answered a' idx); simpl in *; lia.
      * destruct (Nat.leb_spec (S i) idx), (Nat.leb_spec i idx),
          (Nat.ltb_spec idx (S i + length r)), (Nat.ltb_spec idx (i + S (length r)));
          simpl; try reflexivity; lia.
Qed.

Lemma answered_setAnswer (a : obj) (idx j : nat) (v : string) :
  answered (setAnswer idx v a) j = if Nat.eqb j idx then negb (String.eqb v "") else answered a j.
Proof.
  unfold answered, setAnswer. rewrite lookup_assign.
  destruct (Nat.eqb_spec j idx) as [->|Hne].
  - rewrite String.eqb_refl. reflexivity.
  - destruct (String.eqb_spec (key j) (key idx)) as [E|_]; [apply key_inj in E; contradiction|].
    reflexivity.
Qed.

(** X11: [answeredCount] never exceeds the number of questions, so the
    [Math.max(0, ...)] of the "Remaining" badge never clamps: the badge
    shows exactly the questions not yet answered. *)
Theorem remaining_exact (qs : list Question) (a : obj) :
  answeredCount qs a <= length qs
  /\ remaining qs a = Z.of_nat (length qs - answeredCount qs a).
Proof.
  assert (H := count_answered_le a qs 0). unfold answeredCount.
  split; [exact H|]. unfold remaining, answeredCount. lia.
Qed.

(** X12: an answer edit [setAnswers(a => ({...a, [idx]: val}))] changes the
    answered count by exactly its effect on question [idx]: it counts one
    more when an unanswered question in range gets a non-empty answer, one
    less when an answered one is cleared, and nothing for an index beyond the
    list (whose key [String(idx)] no other index shares). *)
Theorem setAnswer_count (qs : list Question) (a : obj) (idx : nat) (v : string) :
  answeredCount qs (setAnswer idx v a)
    + (if (idx <? length qs) && answered a idx then 1 else 0)
  = answeredCount qs a
    + (if (idx <? length qs) && negb (String.eqb v "") then 1 else 0).
Proof.
  unfold answeredCount.
  pose proof (count_answered_update a (setAnswer idx v a) idx) as H.
  assert (Hag : forall j, j <> idx -> answered (setAnswer idx v a) j = answered a j).
  { intros j Hj. rewrite answered_setAnswer.
    destruct (Nat.eqb_spec j idx); [contradiction|reflexivity]. }
  specialize (H Hag qs 0). simpl in H.
  rewrite answered_setAnswer, Nat.eqb_refl in H. exact H.
Qed.

(** X13: [onSubmit] posts only when there are questions, and then posts the
    answer record exactly as held, to [/answers/submit] with the current
    question-set id, without checking how many questions were answered;
    with no questions it neither posts nor sets [loading]. *)
Theorem onSubmit_posts (qs : list Question) (qsId : string) (a : obj) :
  (onSubmit qs qsId a = [] <-> qs = [])
  /\ forall path p, In (SubmitPost path p) (onSubmit qs qsId a)
       <-> qs <> [] /\ path = "/answers/submit" /\ p = mkAnswerSubmitRequest qsId a.
Proof.
  unfold onSubmit. destruct qs as [|q r]; simpl.
  - split; [tauto|]. intros path p. split; [intros []|intros [H _]; congruence].
  - split; [split; discriminate|]. intros path p. split.
    + intros [H|[H|[]]]; [discriminate|]. injection H as <- <-.
      split; [discriminate|split; reflexivity].
    + intros [_ [-> ->]]. right; left. reflexivity.
Qed.

End QuestionsAnswersFacts.

Module LuhnFacts.
Import Pii.

(** The value one digit adds to [checksum] at loop index [i]. *)
Definition luhn_weight (parity i d : nat) : nat :=
  if Nat.eqb (i mod 2) parity then (if 9 <? d * 2 then d * 2 - 9 else d * 2) else d.

(** The sum of the weights of [ds] from loop index [i] on. *)
Fixpoint luhn_sum (parity i : nat) (ds : list nat) : nat :=
  match ds with
  | [] => 0
  | d :: r => luhn_weight parity i d + luhn_sum parity (S i) r
  end.

Lemma luhn_loop_cons (parity i d : nat) (ds : list nat) (c : nat) :
  ds <> [] ->
  luhn_loop parity i (d :: ds) c = luhn_loop parity (S i) ds (c + luhn_weight parity i d).
Proof. destruct ds; [congruence|reflexivity]. Qed.

Lemma luhn_loop_snoc (parity : nat) (ds : list nat) (y : nat) :
  forall i c, luhn_loop parity i (ds ++ [y]) c = c + luhn_sum parity i ds.
Proof.
  induction ds as [|d r IH]; intros i c; [simpl; lia|].
  cbn [app]. rewrite luhn_loop_cons by (destruct r; discriminate).
  rewrite IH. cbn [luhn_sum]. lia.
Qed.

Lemma luhn_sum_app (parity : nat) (pre post : list nat) (x : nat) :
  forall i, luhn_sum parity i (pre ++ x :: post)
    = luhn_sum parity i pre + luhn_weight parity (i + length pre) x
      + luhn_sum parity (S (i + length pre)) post.
Proof.
  induction pre as [|d r IH]; intros i; simpl.
  - rewrite Nat.add_0_r. reflexivity.
  - rewrite IH. replace (S i + length r) with (i + S (length r)) by lia. lia.
Qed.

Lemma digits_of_lt (s : string) : forall d, In d (digits_of s) -> d < 10.
Proof.
  induction s as [|c r IH]; simpl; [intros _ []|].
  unfold digit_value. intros d.
  destruct (Nat.leb_spec 48 (nat_of_ascii c)), (Nat.leb_spec (nat_of_ascii c) 57);
    simpl; try apply IH.
  intros [<-|Hin]; [lia|apply IH, Hin].
Qed.

Lemma luhn_weight_lt (parity i d : nat) : d < 10 -> luhn_weight parity i d < 10.
Proof.
  intros Hd. unfold luhn_weight.
  destruct (Nat.eqb (i mod 2) parity); [destruct (Nat.ltb_spec 9 (d * 2))|]; lia.
Qed.

Lemma luhn_weight_inj (parity i a b : nat) :
  a < 10 -> b < 10 -> luhn_weight parity i a = luhn_weight parity i b -> a = b.
Proof.
  intros Ha Hb. unfold luhn_weight.
  destruct (Nat.eqb (i mod 2) parity); [|tauto].
  destruct (Nat.ltb_spec 9 (a * 2)), (Nat.ltb_spec 9 (b * 2)); lia.
Qed.

Lemma mod10_cancel (s x y : nat) :
  x < 10 -> y < 10 -> (s + x) mod 10 = 0 -> (s + y) mod 10 = 0 -> x = y.
Proof.
  intros Hx Hy E1 E2.
  pose proof (Nat.div_mod_eq (s + x) 10) as D1.
  pose proof (Nat.div_mod_eq (s + y) 10) as D2.
  rewrite E1 in D1. rewrite E2 in D2. lia.
Qed.

(** X14: [luhnCheck] catches every single-digit error: two card numbers
    whose digit sequences differ in exactly one position never both pass the
    check, wherever the changed digit is (the check digit included). *)
Theorem luhn_single_digit_error (s1 s2 : string) (pre post : list nat) (a b : nat) :
  digits_of s1 = pre ++ a :: post ->
  digits_of s2 = pre ++ b :: post ->
  a <> b ->
  luhnCheck s1 = false \/ luhnCheck s2 = false.
Proof.
  intros H1 H2 Hab.
  assert (Ha : a < 10) by (apply (digits_of_lt s1); rewrite H1; apply in_or_app; right; left; reflexivity).
  assert (Hb : b < 10) by (apply (digits_of_lt s2); rewrite H2; apply in_or_app; right; left; reflexivity).
  unfold luhnCheck. cbv zeta. rewrite H1, H2, !length_app. cbn [length].
  destruct ((length pre + S (length post) <? 13) || (19 <? length pre + S (length post)));
    [left; reflexivity|].
  set (parity := (length pre + S (length post) - 2) mod 2).
  destruct (Nat.eqb_spec ((luhn_loop parity 0 (pre ++ a :: post) 0 + last (pre ++ a :: post) 0) mod 10) 0)
    as [E1|_]; [|left; reflexivity].
  destruct (Nat.eqb_spec ((luhn_loop parity 0 (pre ++ b :: post) 0 + last (pre ++ b :: post) 0) mod 10) 0)
    as [E2|_]; [|right; reflexivity].
  exfalso. apply Hab.
  destruct post as [|l post'] using rev_ind.
  - rewrite !luhn_loop_snoc, !last_last in *.
    apply (mod10_cancel (0 + luhn_sum parity 0 pre)); assumption.
  - rewrite !app_comm_cons, !app_assoc, !luhn_loop_snoc, !last_last, !luhn_sum_app in *.
    apply (luhn_weight_inj parity (0 + length pre)); try assumption.
    apply (mod10_cancel (luhn_sum parity 0 pre + luhn_sum parity (S (0 + length pre)) post' + l));
      try apply luhn_weight_lt; try assumption;
      [refine (eq_trans _ E1)|refine (eq_trans _ E2)]; f_equal; lia.
Qed.

Lemma luhn_single_digit_error_witness :
  luhnCheck "4111111111111111" = true
  /\ (luhnCheck "4111111111111111" = false \/ luhnCheck "4111111111111112" = false).
Proof.
  split; [vm_compute; reflexivity|].
  apply (luhn_single_digit_error "4111111111111111" "4111111111111112"
           [4;1;1;1;1;1;1;1;1;1;1;1;1;1;1] [] 1 2);
    [vm_compute; reflexivity|vm_compute; reflexivity|discriminate].
Defined.

End LuhnFacts.

Module LoginFormFacts.
Import ApiClient ApiClientFacts.

Lemma hex_val_ci_digit (k : nat) : k < 16 -> hex_val_ci (hex_digit k) = Some k.
Proof.
  intros Hk.
  do 16 (destruct k as [|k]; [vm_compute; reflexivity|]). lia.
Qed.

Lemma hex_digit_not (k : nat) : k < 16 ->
  hex_digit k <> "&"%char /\ hex_digit k <> "="%char.
Proof.
  intros Hk.
  do 16 (destruct k as [|k]; [vm_compute; split; discriminate|]). lia.
Qed.

Lemma form_encode_chars (s : string) :
  ~ In "&"%char (list_ascii_of_string (form_encode s))
  /\ ~ In "="%char (list_ascii_of_string (form_encode s)).
Proof.
  induction s as [|c r [IH1 IH2]]; simpl; [tauto|].
  pose proof (nat_ascii_bounded c) as Hb.
  assert (Hq : nat_of_ascii c / 16 < 16) by (apply Nat.Div0.div_lt_upper_bound; lia).
  assert (Hm : nat_of_ascii c mod 16 < 16) by (apply Nat.mod_upper_bound; lia).
  destruct (form_safe c) eqn:Hs; [|destruct (Ascii.eqb c " ")]; simpl.
  - split; intros [E|Hin]; try tauto; subst c; vm_compute in Hs; discriminate.
  - split; intros [E|Hin]; try tauto; discriminate.
  - destruct (hex_digit_not _ Hq) as [Hq1 Hq2], (hex_digit_not _ Hm) as [Hm1 Hm2].
    split; intros [E|[E|[E|Hin]]]; try tauto; congruence.
Qed.

Lemma form_decode_pct (h1 h2 : ascii) (a b : nat) (t : string) :
  hex_val_ci h1 = Some a -> hex_val_ci h2 = Some b ->
  form_decode (String "%" (String h1 (String h2 t)))
  = String (ascii_of_nat (a * 16 + b)) (form_decode t).
Proof. intros H1 H2. cbn -[hex_val_ci]. rewrite H1, H2. reflexivity. Qed.

Lemma form_decode_encode (s : string) : form_decode (form_encode s) = s.
Proof.
  induction s as [|c r IH]; [reflexivity|]. cbn [form_encode].
  destruct (form_safe c) eqn:Hs.
  - cbn [form_decode].
    destruct (Ascii.eqb_spec c "+") as [->|_]; [vm_compute in Hs; discriminate|].
    destruct (Ascii.eqb_spec c "%") as [->|_]; [vm_compute in Hs; discriminate|].
    rewrite IH. reflexivity.
  - destruct (Ascii.eqb_spec c " ") as [->|_].
    + cbn [form_decode]. rewrite IH. reflexivity.
    + pose proof (nat_ascii_bounded c) as Hb.
      cbn -[Nat.div Nat.modulo hex_val_ci hex_digit nat_of_ascii ascii_of_nat form_decode].
      rewrite (form_decode_pct _ _ (nat_of_ascii c / 16) (nat_of_ascii c mod 16))
        by (apply hex_val_ci_digit;
            first [apply Nat.Div0.div_lt_upper_bound | apply Nat.mod_upper_bound]; lia).
      rewrite IH. f_equal.
      rewrite Nat.mul_comm, <- Nat.div_mod by discriminate.
      apply ascii_nat_embedding.
Qed.

Lemma in_ascii_append (c : ascii) (x y : string) :
  In c (list_ascii_of_string (x ++ y)) <->
  In c (list_ascii_of_string x) \/ In c (list_ascii_of_string y).
Proof.
  induction x as [|d x IH]; simpl; [tauto|]. rewrite IH. tauto.
Qed.

Lemma split_on_no_sep (sep : ascii) (x : string) :
  ~ In sep (list_ascii_of_string x) ->
  split_on sep x = [x] /\ forall y, split_on sep (x ++ String sep y) = x :: split_on sep y.
Proof.
  induction x as [|c x IH]; simpl; intros Hn.
  - split; [reflexivity|]. intros y. rewrite Ascii.eqb_refl. reflexivity.
  - destruct (Ascii.eqb_spec c sep) as [E|_]; [tauto|].
    destruct IH as [IH1 IH2]; [tauto|].
    split; [rewrite IH1; reflexivity|]. intros y. rewrite IH2. reflexivity.
Qed.

Lemma split_first_no_sep (sep : ascii) (x y : string) :
  ~ In sep (list_ascii_of_string x) -> split_first sep (x ++ String sep y) = (x, Some y).
Proof.
  induction x as [|c x IH]; simpl; intros Hn.
  - rewrite Ascii.eqb_refl. reflexivity.
  - destruct (Ascii.eqb_spec c sep) as [E|_]; [tauto|].
    rewrite IH by tauto. reflexivity.
Qed.

Lemma split_on_concat (xs : list string) :
  xs <> [] -> (forall x, In x xs -> ~ In "&"%char (list_ascii_of_string x)) ->
  split_on "&" (String.concat "&" xs) = xs.
Proof.
  induction xs as [|x r IH]; intros Hne Hall; [congruence|].
  assert (Hx : ~ In "&"%char (list_ascii_of_string x)) by (apply Hall; left; reflexivity).
  destruct r as [|y r].
  - apply (split_on_no_sep _ _ Hx).
  - change (String.concat "&" (x :: y :: r)) with (x ++ String "&" (String.concat "&" (y :: r)))%string.
    rewrite (proj2 (split_on_no_sep _ _ Hx)), IH; [reflexivity|discriminate|].
    intros z Hz. apply Hall. right. exact Hz.
Qed.

Lemma form_parse_serialize (params : list (string * string)) :
  form_parse (form_serialize params) = params.
Proof.
  unfold form_parse, form_serialize.
  destruct params as [|p ps]; [reflexivity|].
  rewrite split_on_concat; [|discriminate|].
  - induction (p :: ps) as [|[k v] r IH]; [reflexivity|].
    cbn [flat_map map fst snd].
    destruct (String.eqb_spec (form_encode k ++ "=" ++ form_encode v)%string "") as [E|_].
    + destruct (form_encode k); discriminate.
    + change ("=" ++ form_encode v)%string with (String "=" (form_encode v)).
      rewrite split_first_no_sep by apply form_encode_chars.
      rewrite !form_decode_encode, IH. reflexivity.
  - intros x Hx. apply in_map_iff in Hx. destruct Hx as [[k v] [<- _]].
    cbn [fst snd]. change ("=" ++ form_encode v)%string with (String "=" (form_encode v)).
    rewrite in_ascii_append. simpl. intros [H|[E|H]]; [| discriminate |];
      apply (proj1 (form_encode_chars _)) in H; exact H.
Qed.

(** X15: [login] sends a form body of exactly two fields whatever the email
    and password contain: the body splits at [&] into two pieces, and a form
    parser reads back [username = email] and [password = password], so no
    character of the credentials ([&], [=], [+], [%], a space) can add, drop
    or alter a field. *)
Theorem login_body_fields (email password : string) :
  length (split_on "&" (login_body email password)) = 2
  /\ form_parse (login_body email password) = [("username", email); ("password", password)].
Proof.
  split; [|apply form_parse_serialize].
  unfold login_body, form_serialize. rewrite split_on_concat; [reflexivity|discriminate|].
  intros x Hx. apply in_map_iff in Hx. destruct Hx as [[k v] [<- _]].
  cbn [fst snd]. change ("=" ++ form_encode v)%string with (String "=" (form_encode v)).
  rewrite in_ascii_append. simpl. intros [H|[E|H]]; [| discriminate |];
    apply (proj1 (form_encode_chars _)) in H; exact H.
Qed.

End LoginFormFacts.

Module NavigationFacts.
Import ApiClient ApiClientFacts LoginFormFacts Navigation.

Lemma encode_avoids (s : string) (t : ascii) :
  In t ["&"; "="; "?"; "#"]%char ->
  ~ In t (list_ascii_of_string (encodeURIComponent s)).
Proof.
  intros Ht Hin. destruct (encode_chars s t Hin) as [Hu|[E|[k [Hk E]]]].
  - destruct Ht as [<-|[<-|[<-|[<-|[]]]]]; vm_compute in Hu; discriminate.
  - subst t. destruct Ht as [E|[E|[E|[E|[]]]]]; discriminate.
  - destruct (hex_digit_char k t Hk E) as [_ [H2 [H3 _]]].
    destruct (hex_digit_not k Hk) as [H5 H6]. rewrite <- E in H5, H6.
    destruct Ht as [<-|[<-|[<-|[<-|[]]]]]; auto.
Qed.

Lemma form_decode_uri (s : string) : form_decode (encodeURIComponent s) = s.
Proof.
  induction s as [|c r IH]; [reflexivity|]. cbn [encodeURIComponent].
  destruct (uri_unreserved c) eqn:Hu.
  - cbn [form_decode].
    destruct (Ascii.eqb_spec c "+") as [->|_]; [vm_compute in Hu; discriminate|].
    destruct (Ascii.eqb_spec c "%") as [->|_]; [vm_compute in Hu; discriminate|].
    rewrite IH. reflexivity.
  - pose proof (nat_ascii_bounded c) as Hb.
    rewrite (form_decode_pct _ _ (nat_of_ascii c / 16) (nat_of_ascii c mod 16))
      by (apply hex_val_ci_digit;
          first [apply Nat.Div0.div_lt_upper_bound | apply Nat.mod_upper_bound]; lia).
    rewrite IH. f_equal.
    rewrite Nat.mul_comm, <- Nat.div_mod by discriminate.
    apply ascii_nat_embedding.
Qed.

Lemma split_first_absent (sep : ascii) (x : string) :
  ~ In sep (list_ascii_of_string x) -> split_first sep x = (x, None).
Proof.
  induction x as [|c x IH]; simpl; intros Hn; [reflexivity|].
  destruct (Ascii.eqb_spec c sep) as [E|_]; [tauto|]. rewrite IH by tauto. reflexivity.
Qed.

Lemma not_in_pair (t : ascii) (name v : string) :
  t <> "="%char -> ~ In t (list_ascii_of_string name) -> ~ In t (list_ascii_of_string v) ->
  ~ In t (list_ascii_of_string (name ++ String "=" v)).
Proof.
  intros Ht Hn Hv. rewrite in_ascii_append. simpl. intros [H|[E|H]]; auto.
Qed.

(** A link [prefix?name=encodeURIComponent(id)] read back on the target
    page. *)
Lemma link_read_back (prefix name id : string) :
  ~ In "?"%char (list_ascii_of_string prefix) ->
  ~ In "&"%char (list_ascii_of_string name) ->
  ~ In "="%char (list_ascii_of_string name) ->
  ~ In "#"%char (list_ascii_of_string name) ->
  form_decode name = name ->
  search_get (location_search (prefix ++ String "?" (name ++ String "=" (encodeURIComponent id))))
             name = Some id.
Proof.
  intros Hp Hamp Heq Hhash Hd.
  set (B := (name ++ String "=" (encodeURIComponent id))%string).
  assert (HB : B <> "") by (unfold B; destruct name; discriminate).
  unfold location_search. rewrite (split_first_no_sep _ _ _ Hp).
  rewrite (split_first_absent "#" B)
    by (apply not_in_pair; [discriminate|exact Hhash|apply encode_avoids; simpl; tauto]).
  cbn [fst]. destruct (String.eqb_spec B "") as [E|_]; [contradiction|].
  unfold search_get, form_parse.
  assert (HnB : ~ In "&"%char (list_ascii_of_string B))
    by (apply not_in_pair; [discriminate|exact Hamp|apply encode_avoids; simpl; tauto]).
  rewrite (proj1 (split_on_no_sep "&" B HnB)).
  cbn [flat_map]. destruct (String.eqb_spec B "") as [E|_]; [contradiction|].
  unfold B. rewrite (split_first_no_sep _ _ _ Heq), Hd, form_decode_uri.
  simpl. rewrite String.eqb_refl. reflexivity.
Qed.

(** X16: the ids that pages hand to each other in the query string arrive
    intact: [Questions.tsx] sends a feedback id to [/feedback] and
    [Content.tsx] a content id to [/content-view], both under [id], and
    [ContentView.tsx] a content id to [/questions] under [content_id]; the
    target page's [new URLSearchParams(search).get(...)] returns exactly that
    id, whatever characters it holds. *)
Theorem link_round_trip (id : string) :
  search_get (location_search (feedback_link id)) "id" = Some id
  /\ search_get (location_search (content_view_link id)) "id" = Some id
  /\ search_get (location_search (questions_link id)) "content_id" = Some id.
Proof.
  repeat split.
  - apply (link_read_back "/feedback" "id" id); simpl; try tauto;
      intuition discriminate.
  - apply (link_read_back "/content-view" "id" id); simpl; try tauto;
      intuition discriminate.
  - apply (link_read_back "/questions" "content_id" id); simpl; try tauto;
      intuition discriminate.
Qed.

End NavigationFacts.

(** ** The path [getContentById] requests *)

Module ContentPathFacts.
Import ApiClient ApiClientFacts LoginFormFacts NavigationFacts.

Lemma append_empty_r (s : string) : (s ++ "")%string = s.
Proof. induction s as [|c s IH]; simpl; [reflexivity|]. rewrite IH. reflexivity. Qed.

(** The bytes of an encoded id and of the [/api/content/] prefix pass the
    parser's cleaning steps unchanged and are no path terminator. *)
Lemma plain_char (c : ascii) :
  (uri_unreserved c || Ascii.eqb c "%" || Ascii.eqb c "/") = true ->
  c0_or_space c = false /\ tab_or_newline c = false /\ path_percent_encode_set c = false
  /\ c <> "\"%char /\ c <> "?"%char /\ c <> "#"%char.
Proof.
  destruct c as [[] [] [] [] [] [] [] []]; vm_compute; intros H;
    try discriminate H; repeat split; first [reflexivity | discriminate].
Qed.

Lemma enc_char (s : string) (c : ascii) :
  In c (list_ascii_of_string (encodeURIComponent s)) ->
  (uri_unreserved c || Ascii.eqb c "%") = true.
Proof.
  intros Hin. destruct (encode_chars s c Hin) as [Hu|[->|[k [Hk ->]]]].
  - rewrite Hu. reflexivity.
  - reflexivity.
  - do 16 (destruct k as [|k]; [vm_compute; reflexivity|]). lia.
Qed.

Lemma clean_id (s : string) :
  (forall c, In c (list_ascii_of_string s) ->
     (uri_unreserved c || Ascii.eqb c "%" || Ascii.eqb c "/") = true) ->
  trim_start s = s /\ trim_end s = s /\ remove_tab_newline s = s
  /\ backslash_to_slash s = s /\ path_encode s = s.
Proof.
  induction s as [|c r IH]; intros H; [repeat split|].
  destruct (plain_char c (H c (or_introl eq_refl))) as [H1 [H2 [H3 [H4 _]]]].
  destruct IH as [_ [E2 [E3 [E4 E5]]]]; [intros d Hd; apply H; right; exact Hd|].
  cbn [trim_start trim_end remove_tab_newline backslash_to_slash path_encode].
  rewrite H1, H2, H3, E2, E3, E4, E5, andb_false_r.
  destruct (Ascii.eqb_spec c "\") as [E|_]; [contradiction|].
  repeat split.
Qed.

Lemma resolve_plain (acc segs : list string) :
  (forall seg, In seg segs -> is_single_dot seg = false /\ is_double_dot seg = false) ->
  resolve_dots acc segs = rev acc ++ segs.
Proof.
  revert acc. induction segs as [|seg rest IH]; intros acc H; cbn [resolve_dots].
  - rewrite app_nil_r. reflexivity.
  - destruct (H seg (or_introl eq_refl)) as [E1 E2]. rewrite E1, E2.
    rewrite IH by (intros x Hx; apply H; right; exact Hx).
    cbn [rev]. rewrite <- app_assoc. reflexivity.
Qed.

(** The request of an id whose encoding [e] is not a dot segment. *)
Lemma request_of_segment (e : string) :
  (forall c, In c (list_ascii_of_string e) -> (uri_unreserved c || Ascii.eqb c "%") = true) ->
  is_single_dot e = false -> is_double_dot e = false ->
  request_path (combineURLs baseURL ("/content/" ++ e)) = Some ("/api/content/" ++ e)%string.
Proof.
  intros He Hs Hd.
  assert (combineURLs baseURL ("/content/" ++ e) = "/api/content/" ++ e)%string as ->
    by reflexivity.
  assert (forall c, In c (list_ascii_of_string ("/api/content/" ++ e)) ->
            (uri_unreserved c || Ascii.eqb c "%" || Ascii.eqb c "/") = true) as Hall.
  { intros c Hc. apply in_ascii_append in Hc as [Hc|Hc].
    - simpl in Hc. repeat destruct Hc as [<-|Hc]; try reflexivity. contradiction.
    - rewrite (He c Hc). reflexivity. }
  destruct (clean_id _ Hall) as [E1 [E2 [E3 [E4 _]]]].
  assert (forall t, t = "?"%char \/ t = "#"%char ->
            ~ In t (list_ascii_of_string ("/api/content/" ++ e))) as Hno.
  { intros t Ht Hin. destruct (plain_char t (Hall t Hin)) as [_ [_ [_ [_ [H5 H6]]]]].
    destruct Ht; contradiction. }
  unfold request_path. cbv zeta.
  rewrite E1, E2, E3, (split_first_absent "#") by (apply Hno; right; reflexivity).
  cbn [fst]. rewrite (split_first_absent "?") by (apply Hno; left; reflexivity).
  cbn [fst]. rewrite E4.
  assert (~ In "/"%char (list_ascii_of_string e)) as Hsl.
  { intros Hin. specialize (He _ Hin). vm_compute in He. discriminate. }
  replace ("/api/content/" ++ e)%string
    with (String "/" ("api" ++ String "/" ("content" ++ String "/" e)))%string
    by reflexivity.
  cbv beta iota.
  rewrite (proj2 (split_on_no_sep "/" "api" ltac:(simpl; intuition discriminate))).
  rewrite (proj2 (split_on_no_sep "/" "content" ltac:(simpl; intuition discriminate))).
  rewrite (proj1 (split_on_no_sep "/" e Hsl)).
  cbn [map].
  assert (path_encode e = e) as ->.
  { apply clean_id. intros c Hc. rewrite (He c Hc). reflexivity. }
  rewrite resolve_plain.
  - cbn [rev app path_serialize]. rewrite append_empty_r. reflexivity.
  - intros seg Hseg. simpl in Hseg.
    destruct Hseg as [<-|[<-|[<-|[]]]]; [split; reflexivity|split; reflexivity|].
    split; assumption.
Qed.

Lemma dot_segment_decode (e : string) :
  is_single_dot e = true \/ is_double_dot e = true ->
  percent_decode e = None \/ percent_decode e = Some "." \/ percent_decode e = Some "..".
Proof.
  unfold is_single_dot, is_double_dot. rewrite !existsb_exists.
  intros [[x [Hx E]]|[x [Hx E]]]; apply String.eqb_eq in E; subst e;
    simpl in Hx; repeat destruct Hx as [<-|Hx]; try contradiction;
    vm_compute; first [left; reflexivity | right; left; reflexivity
                       | right; right; reflexivity].
Qed.

Lemma encode_not_dot (id : string) :
  id <> "." -> id <> ".." ->
  is_single_dot (encodeURIComponent id) = false
  /\ is_double_dot (encodeURIComponent id) = false.
Proof.
  intros H1 H2.
  assert (is_single_dot (encodeURIComponent id) = true
          \/ is_double_dot (encodeURIComponent id) = true -> False) as Hn.
  { intros Hd. destruct (dot_segment_decode _ Hd) as [E|[E|E]];
      rewrite percent_decode_encode in E;
      first [discriminate E | injection E; auto]. }
  split; [destruct (is_single_dot _) | destruct (is_double_dot _)];
    auto; exfalso; auto.
Qed.

Lemma encode_nonempty (id : string) : id <> "" -> encodeURIComponent id <> "".
Proof.
  destruct id as [|c r]; [tauto|]. intros _. cbn [encodeURIComponent].
  destruct (uri_unreserved c); discriminate.
Qed.

Lemma content_request (id : string) :
  id <> "." -> id <> ".." ->
  getContentById_request id = Some ("/api/content/" ++ encodeURIComponent id)%string.
Proof.
  intros H1 H2. destruct (encode_not_dot id H1 H2) as [Hs Hd].
  apply request_of_segment; [apply enc_char|exact Hs|exact Hd].
Qed.

Lemma dot_requests :
  getContentById_request "" = Some "/api/content/"
  /\ getContentById_request "." = Some "/api/content/"
  /\ getContentById_request ".." = Some "/api/".
Proof. vm_compute. repeat split. Qed.

(** X3: with the default [baseURL] [/api], [getContentById(id)] requests
    [/api/content/] followed by the encoded id, for every id but [""], [.]
    and [..]: the encoded id is one non-empty path segment, with no [/],
    [?] or [#], that the URL parser's dot-segment resolution leaves in
    place. *)
Theorem getContentById_single_segment (id : string) :
  id <> "" -> id <> "." -> id <> ".." ->
  getContentById_request id = Some ("/api/content/" ++ encodeURIComponent id)%string
  /\ encodeURIComponent id <> ""
  /\ ~ In "/"%char (list_ascii_of_string (encodeURIComponent id))
  /\ ~ In "?"%char (list_ascii_of_string (encodeURIComponent id))
  /\ ~ In "#"%char (list_ascii_of_string (encodeURIComponent id)).
Proof.
  intros H0 H1 H2.
  split; [apply content_request; assumption|].
  split; [apply encode_nonempty; assumption|].
  repeat split; intros Hin; apply enc_char in Hin; vm_compute in Hin; discriminate.
Qed.

Lemma getContentById_single_segment_witness :
  getContentById_request "a/b?c" = Some "/api/content/a%2Fb%3Fc"
  /\ encodeURIComponent "a/b?c" <> ""
  /\ ~ In "/"%char (list_ascii_of_string (encodeURIComponent "a/b?c"))
  /\ ~ In "?"%char (list_ascii_of_string (encodeURIComponent "a/b?c"))
  /\ ~ In "#"%char (list_ascii_of_string (encodeURIComponent "a/b?c")).
Proof.
  apply (getContentById_single_segment "a/b?c"); discriminate.
Defined.

(** X4: two ids reach the same path only when they are equal or are
    [""] and [.], which both request [/api/content/]. *)
Theorem getContentById_injective (id id' : string) :
  getContentById_request id = getContentById_request id' ->
  id = id' \/ (In id [""; "."] /\ In id' [""; "."]).
Proof.
  assert (forall x, x = "" \/ x = "." \/ x = ".."
                    \/ (x <> "" /\ x <> "." /\ x <> "..")) as Hcases.
  { intros x. destruct (String.eqb_spec x ""), (String.eqb_spec x "."),
      (String.eqb_spec x ".."); tauto. }
  destruct dot_requests as [R0 [R1 R2]].
  assert (forall x, x <> "" -> x <> "." -> x <> ".." ->
            getContentById_request x <> Some "/api/content/"
            /\ getContentById_request x <> Some "/api/") as Hgen.
  { intros x X0 X1 X2. rewrite (content_request x X1 X2).
    split; intros E; injection E as E.
    - exact (encode_nonempty x X0 E).
    - discriminate E. }
  intros E.
  destruct (Hcases id) as [->|[->|[->|[I0 [I1 I2]]]]];
    destruct (Hcases id') as [->|[->|[->|[J0 [J1 J2]]]]];
    try (left; reflexivity); try (right; simpl; tauto);
    rewrite ?R0, ?R1, ?R2 in E;
    try discriminate E;
    try (destruct (Hgen id' J0 J1 J2); congruence);
    try (destruct (Hgen id I0 I1 I2); congruence).
  left. rewrite (content_request id I1 I2), (content_request id' J1 J2) in E.
  injection E as E.
  assert (Some id = Some id') as F
    by (rewrite <- (percent_decode_encode id), <- (percent_decode_encode id'), E;
        reflexivity).
  injection F as F. exact F.
Qed.

Lemma getContentById_injective_witness :
  getContentById_request "" = getContentById_request "."
  /\ ("" = "." \/ (In "" [""; "."] /\ In "." [""; "."])).
Proof.
  split; [vm_compute; reflexivity|].
  apply getContentById_injective. vm_compute. reflexivity.
Defined.

(** X17: the ids the URL parser treats as dot segments: [getContentById("")]
    and [getContentById(".")] both request [/api/content/], and
    [getContentById("..")] requests [/api/]. *)
Theorem getContentById_dot_ids :
  getContentById_request "" = Some "/api/content/"
  /\ getContentById_request "." = Some "/api/content/"
  /\ getContentById_request ".." = Some "/api/".
Proof.
  split; [vm_compute; reflexivity|]. split; vm_compute; reflexivity.
Qed.

End ContentPathFacts.
